(** * Grocery app: the REST handlers of the three server variants and the
    confetti particle loop, embedded from the JavaScript sources.

    - [src/server.js]: the in-memory server ([Module InMemory]);
    - the second document of [src/Dockerfile]: the JSON-file-backed server
      ([Module FileBacked]);
    - [src/unnamed/part_002]: the BigQuery-backed server
      ([Module BigQueryBacked]);
    - [src/unnamed/part_000]: [ConfettiCannon] ([Module ConfettiCannon]).

    Conventions of the embedding.
    - A JavaScript value that can occur in a parsed JSON request body, or in a
      field of a stored item, is a [JsVal]; an absent property reads as
      [JUndefined], exactly as destructuring does.
    - [req.body] is the value [express.json()] parsed, an object or an array;
      [req.params.id] is a string.
    - [uuidv4()] and [new Date().toISOString()] are inputs of the handler that
      calls them (the generated identifier and the clock reading).
    - The awaited warehouse calls of the BigQuery variant and the file write
      of the file variant are inputs too: whether the call succeeded, and
      which rows a query returned. *)

From Stdlib Require Import QArith Qround Floats.
From stdpp Require Import gmap strings list.

Set Default Proof Using "Type".
(* Decimal literals such as [0.01] denote the nearest binary64 number, as
   they do in JavaScript. *)
Set Warnings "-inexact-float".
#[local] Open Scope string_scope.
#[local] Open Scope nat_scope.
#[local] Open Scope list_scope.

(** ** JavaScript values *)

#[warnings="-register-all"]
Inductive JsVal : Type :=
| JUndefined
| JNull
| JBool (b : bool)
| JNum (q : Q)
| JStr (s : string)
| JArr (elems : list JsVal)
| JObj (props : gmap string JsVal).

(** [v.k] for a property name [k], as object destructuring uses it:
    a missing property, and any property of a non-object, is [undefined]. *)
Definition prop (k : string) (v : JsVal) : JsVal :=
  match v with
  | JObj props => default JUndefined (props !! k)
  | _ => JUndefined
  end.

(** [v !== undefined] *)
Definition is_defined (v : JsVal) : bool :=
  match v with
  | JUndefined => false
  | _ => true
  end.

(** ToBoolean: [undefined], [null], [false], [0] and the empty string are
    falsy, everything else (every array and object too) is truthy. *)
Definition truthy (v : JsVal) : bool :=
  match v with
  | JUndefined | JNull => false
  | JBool b => b
  | JNum q => negb (Qeq_bool q 0)
  | JStr s => negb (String.eqb s "")
  | JArr _ | JObj _ => true
  end.

(** [v || d] *)
Definition js_or (v d : JsVal) : JsVal := if truthy v then v else d.

(** A number that is a positive integer (1, 2, 3, ...). *)
Definition is_positive_integer (v : JsVal) : bool :=
  match v with
  | JNum q => Qle_bool 1 q && Qeq_bool (inject_Z (Qfloor q)) q
  | _ => false
  end.

(** ** The stored entity *)

Record GroceryItem : Type := {
  id : string;
  name : JsVal;
  quantity : JsVal;
  category : JsVal;
  notes : JsVal;
  bought : JsVal;
  createdAt : JsVal;
  boughtAt : JsVal   (* [JUndefined] when the object has no such property *)
}.

Definition set_bought (v : JsVal) (it : GroceryItem) : GroceryItem :=
  {| id := id it; name := name it; quantity := quantity it;
     category := category it; notes := notes it; bought := v;
     createdAt := createdAt it; boughtAt := boughtAt it |}.

Definition set_quantity (v : JsVal) (it : GroceryItem) : GroceryItem :=
  {| id := id it; name := name it; quantity := v;
     category := category it; notes := notes it; bought := bought it;
     createdAt := createdAt it; boughtAt := boughtAt it |}.

Definition set_notes (v : JsVal) (it : GroceryItem) : GroceryItem :=
  {| id := id it; name := name it; quantity := quantity it;
     category := category it; notes := v; bought := bought it;
     createdAt := createdAt it; boughtAt := boughtAt it |}.

Definition set_boughtAt (v : JsVal) (it : GroceryItem) : GroceryItem :=
  {| id := id it; name := name it; quantity := quantity it;
     category := category it; notes := notes it; bought := bought it;
     createdAt := createdAt it; boughtAt := v |}.

(** ** Array helpers *)

(** [arr.findIndex(p)], with [None] for the result [-1]. *)
Fixpoint findIndex {A : Type} (p : A → bool) (arr : list A) : option nat :=
  match arr with
  | [] => None
  | a :: rest => if p a then Some 0 else S <$> findIndex p rest
  end.

(** [item => item.id === id] *)
Definition has_id (wanted : string) (it : GroceryItem) : bool :=
  String.eqb (id it) wanted.

(** ** Responses *)

Inductive Payload : Type :=
| PItems (items : list GroceryItem)   (* res.json(groceryItems) *)
| PItem (it : GroceryItem)            (* res.json(item) *)
| PError (msg : string)               (* res.json({ error: msg }) *)
| PEmpty.                             (* res.send() *)

Record Response : Type := { status : nat; payload : Payload }.

Definition not_found : Response :=
  {| status := 404; payload := PError "Item not found" |}.

(** The three conditional assignments shared by every [PUT] handler:
    [if (bought !== undefined) item.bought = bought;] and likewise for
    [quantity] and [notes], in that order. *)
Definition assign_if_defined
    (v : JsVal) (set : JsVal → GroceryItem → GroceryItem)
    (it : GroceryItem) : GroceryItem :=
  if is_defined v then set v it else it.

Definition apply_patch (body : JsVal) (it : GroceryItem) : GroceryItem :=
  assign_if_defined (prop "notes" body) set_notes
    (assign_if_defined (prop "quantity" body) set_quantity
       (assign_if_defined (prop "bought" body) set_bought it)).

(** [res.json(groceryItems[itemIndex])] *)
Definition item_response (i : nat) (items : list GroceryItem) : Response :=
  match items !! i with
  | Some it => {| status := 200; payload := PItem it |}
  | None => {| status := 200; payload := PEmpty |}
  end.

(** ** The in-memory server, [src/server.js] *)

Module InMemory.

(** The state is the array [groceryItems]. *)

Definition get_items (items : list GroceryItem)
    : Response * list GroceryItem :=
  ({| status := 200; payload := PItems items |}, items).

Definition newItem (uuid now : string) (body : JsVal) : GroceryItem :=
  {| id := uuid;
     name := prop "name" body;
     quantity := js_or (prop "quantity" body) (JNum 1);
     category := js_or (prop "category" body) (JStr "other");
     notes := js_or (prop "notes" body) (JStr "");
     bought := JBool false;
     createdAt := JStr now;
     boughtAt := JUndefined |}.

Definition post_item (uuid now : string) (body : JsVal)
    (items : list GroceryItem) : Response * list GroceryItem :=
  let it := newItem uuid now body in
  ({| status := 201; payload := PItem it |}, items ++ [it]).

Definition put_item (wanted : string) (body : JsVal)
    (items : list GroceryItem) : Response * list GroceryItem :=
  match findIndex (has_id wanted) items with
  | None => (not_found, items)
  | Some itemIndex =>
      let items' := alter (apply_patch body) itemIndex items in
      (item_response itemIndex items', items')
  end.

Definition delete_item (wanted : string) (items : list GroceryItem)
    : Response * list GroceryItem :=
  match findIndex (has_id wanted) items with
  | None => (not_found, items)
  | Some itemIndex =>
      ({| status := 204; payload := PEmpty |}, delete itemIndex items)
  end.

Definition clear_bought (items : list GroceryItem)
    : Response * list GroceryItem :=
  ({| status := 204; payload := PEmpty |},
   filter (λ it, ¬ truthy (bought it)) items).

End InMemory.

(** Request sequences against the in-memory server. *)

Inductive Request : Type :=
| GetItems                                      (* GET /api/items *)
| PostItem (uuid now : string) (body : JsVal)   (* POST /api/items *)
| PutItem (wanted : string) (body : JsVal)      (* PUT /api/items/:id *)
| DeleteItem (wanted : string)                  (* DELETE /api/items/:id *)
| ClearBought.                           (* DELETE /api/items/bought/clear *)

Definition handle (r : Request) (items : list GroceryItem)
    : Response * list GroceryItem :=
  match r with
  | GetItems => InMemory.get_items items
  | PostItem uuid now body => InMemory.post_item uuid now body items
  | PutItem wanted body => InMemory.put_item wanted body items
  | DeleteItem wanted => InMemory.delete_item wanted items
  | ClearBought => InMemory.clear_bought items
  end.

(** The requests are handled one after the other; the result is the list of
    responses and the final array. *)
Fixpoint serve (rs : list Request) (items : list GroceryItem)
    : list Response * list GroceryItem :=
  match rs with
  | [] => ([], items)
  | r :: rest =>
      let '(resp, items') := handle r items in
      let '(resps, final) := serve rest items' in
      (resp :: resps, final)
  end.

(** A request that either says nothing about [quantity] or supplies a
    positive integer for it. *)
Definition quantity_valid (r : Request) : bool :=
  match r with
  | PostItem _ _ body | PutItem _ body =>
      negb (is_defined (prop "quantity" body))
      || is_positive_integer (prop "quantity" body)
  | GetItems | DeleteItem _ | ClearBought => true
  end.

(** ** The [boughtAt] stamp of the two persistent variants

    [if (bought === true) item.boughtAt = now;
     else if (bought === false) <clear item.boughtAt>]
    where the file variant clears with [delete] and the BigQuery variant
    assigns [null]. *)
Definition stamp_boughtAt (cleared : JsVal) (now : string) (body : JsVal)
    (it : GroceryItem) : GroceryItem :=
  match prop "bought" body with
  | JBool true => set_boughtAt (JStr now) it
  | JBool false => set_boughtAt cleared it
  | _ => it
  end.

Definition server_error (msg : string) : Response :=
  {| status := 500; payload := PError msg |}.

(** ** The file-backed server, second document of [src/Dockerfile] *)

Module FileBacked.

(** The array [groceryItems] and the content of [DATA_FILE]. *)
Record Store : Type := {
  groceryItems : list GroceryItem;
  dataFile : list GroceryItem
}.

(** [saveItems()], called after the array was replaced by [items]:
    [writeFileSync] rewrites the file, or throws and the error is logged and
    dropped ([written = false]). *)
Definition saveItems (written : bool) (items : list GroceryItem)
    (st : Store) : Store :=
  {| groceryItems := items;
     dataFile := if written then items else dataFile st |}.

Definition get_items (st : Store) : Response * Store :=
  ({| status := 200; payload := PItems (groceryItems st) |}, st).

Definition post_item (uuid now : string) (written : bool) (body : JsVal)
    (st : Store) : Response * Store :=
  let it := InMemory.newItem uuid now body in
  ({| status := 201; payload := PItem it |},
   saveItems written (groceryItems st ++ [it]) st).

Definition patch (now : string) (body : JsVal) (it : GroceryItem)
    : GroceryItem :=
  stamp_boughtAt JUndefined now body (apply_patch body it).

Definition put_item (now : string) (written : bool) (wanted : string)
    (body : JsVal) (st : Store) : Response * Store :=
  match findIndex (has_id wanted) (groceryItems st) with
  | None => (not_found, st)
  | Some itemIndex =>
      let items' := alter (patch now body) itemIndex (groceryItems st) in
      (item_response itemIndex items', saveItems written items' st)
  end.

Definition delete_item (written : bool) (wanted : string) (st : Store)
    : Response * Store :=
  match findIndex (has_id wanted) (groceryItems st) with
  | None => (not_found, st)
  | Some itemIndex =>
      ({| status := 204; payload := PEmpty |},
       saveItems written (delete itemIndex (groceryItems st)) st)
  end.

Definition clear_bought (written : bool) (st : Store) : Response * Store :=
  ({| status := 204; payload := PEmpty |},
   saveItems written
     (filter (λ it, ¬ truthy (bought it)) (groceryItems st))
     st).

End FileBacked.

(** ** The BigQuery-backed server, [src/unnamed/part_002]

    The state is the cache [groceryItems].  Every handler but [GET] awaits one
    warehouse statement; [stored] tells whether it returned ([true]) or threw
    ([false]), in which case the handler's [catch] answers 500. *)

Module BigQueryBacked.

(** [loadItemsFromBigQuery()] catches its own errors and returns [[]];
    [rows] is what the query returned, [None] when it threw. *)
Definition loadItemsFromBigQuery (rows : option (list GroceryItem))
    : list GroceryItem :=
  default [] rows.

Definition get_items (rows : option (list GroceryItem))
    (items : list GroceryItem) : Response * list GroceryItem :=
  let items' := loadItemsFromBigQuery rows in
  ({| status := 200; payload := PItems items' |}, items').

Definition newItem (uuid now : string) (body : JsVal) : GroceryItem :=
  {| id := uuid;
     name := prop "name" body;
     quantity := js_or (prop "quantity" body) (JNum 1);
     category := js_or (prop "category" body) (JStr "other");
     notes := js_or (prop "notes" body) (JStr "");
     bought := JBool false;
     createdAt := JStr now;
     boughtAt := JNull |}.

Definition post_item (uuid now : string) (stored : bool) (body : JsVal)
    (items : list GroceryItem) : Response * list GroceryItem :=
  let it := newItem uuid now body in
  if stored
  then ({| status := 201; payload := PItem it |}, items ++ [it])
  else (server_error "Failed to add item", items).

Definition patch (now : string) (body : JsVal) (it : GroceryItem)
    : GroceryItem :=
  stamp_boughtAt JNull now body (apply_patch body it).

(** The cached item is assigned before [updateItemInBigQuery] is awaited,
    so the cache keeps the patch when the statement throws. *)
Definition put_item (now : string) (stored : bool) (wanted : string)
    (body : JsVal) (items : list GroceryItem)
    : Response * list GroceryItem :=
  match findIndex (has_id wanted) items with
  | None => (not_found, items)
  | Some itemIndex =>
      let items' := alter (patch now body) itemIndex items in
      if stored
      then (item_response itemIndex items', items')
      else (server_error "Failed to update item", items')
  end.

Definition delete_item (stored : bool) (wanted : string)
    (items : list GroceryItem) : Response * list GroceryItem :=
  match findIndex (has_id wanted) items with
  | None => (not_found, items)
  | Some itemIndex =>
      if stored
      then ({| status := 204; payload := PEmpty |}, delete itemIndex items)
      else (server_error "Failed to delete item", items)
  end.

Definition clear_bought (stored : bool) (items : list GroceryItem)
    : Response * list GroceryItem :=
  if stored
  then ({| status := 204; payload := PEmpty |},
        filter (λ it, ¬ truthy (bought it)) items)
  else (server_error "Failed to clear bought items", items).

End BigQueryBacked.

(** ** Sample data *)

Definition milk : GroceryItem :=
  {| id := "id-milk"; name := JStr "milk"; quantity := JNum 2;
     category := JStr "dairy"; notes := JStr ""; bought := JBool false;
     createdAt := JStr "2024-05-01T10:00:00.000Z"; boughtAt := JUndefined |}.

Definition bread : GroceryItem :=
  {| id := "id-bread"; name := JStr "bread"; quantity := JNum 1;
     category := JStr "bakery"; notes := JStr "sliced"; bought := JBool true;
     createdAt := JStr "2024-05-01T10:01:00.000Z"; boughtAt := JUndefined |}.

Definition soap : GroceryItem :=
  {| id := "id-soap"; name := JStr "soap"; quantity := JNum 3;
     category := JStr "household"; notes := JStr ""; bought := JBool false;
     createdAt := JStr "2024-05-01T10:02:00.000Z"; boughtAt := JUndefined |}.

(** [{ bought: true }], [{ bought: false }] *)
Definition bought_true : JsVal := JObj {[ "bought" := JBool true ]}.
Definition bought_false : JsVal := JObj {[ "bought" := JBool false ]}.

(** ** The confetti cannon, [src/unnamed/part_000] *)

Module ConfettiCannon.

(** The arithmetic of the particle loop.  The code computes on JavaScript
    numbers; the loop is written once over this interface and read at two
    instances: IEEE binary64 ([binary64], what the browser computes) and
    exact rationals ([exact], the arithmetic the design text reasons in). *)
Class Number (N : Type) : Type := {
  lit : Q → N;              (* a numeric literal of the source *)
  add : N → N → N;          (* a + b *)
  sub : N → N → N;          (* a - b *)
  mul : N → N → N;          (* a * b *)
  opp : N → N;              (* -a *)
  leb : N → N → bool;       (* a <= b *)
  ltb : N → N → bool;       (* a < b *)
  nonzero : N → bool        (* ToBoolean of a number *)
}.

#[global] Instance exact : Number Q := {
  lit q := q;
  add := Qplus;
  sub := Qminus;
  mul := Qmult;
  opp := Qopp;
  leb := Qle_bool;
  ltb a b := negb (Qle_bool b a);
  nonzero q := negb (Qeq_bool q 0)
}.

Definition float_of_Z (z : Z) : float :=
  match z with
  | Z0 => 0%float
  | Zpos _ => PrimFloat.of_uint63 (Uint63.of_Z z)
  | Zneg p => PrimFloat.opp (PrimFloat.of_uint63 (Uint63.of_Z (Zpos p)))
  end.

(** The double nearest to a short decimal literal [n/d]: both [n] and [d]
    are exact doubles and the division rounds to nearest. *)
Definition float_of_literal (q : Q) : float :=
  PrimFloat.div (float_of_Z (Qnum q)) (float_of_Z (Zpos (Qden q))).

#[global] Instance binary64 : Number float := {
  lit := float_of_literal;
  add := PrimFloat.add;
  sub := PrimFloat.sub;
  mul := PrimFloat.mul;
  opp := PrimFloat.opp;
  leb := PrimFloat.leb;
  ltb := PrimFloat.ltb;
  nonzero f := negb (PrimFloat.is_zero f || PrimFloat.is_nan f)
}.

Inductive Shape : Type := rect | circle.

Record Particle (N : Type) : Type := {
  x : N;
  y : N;
  vx : N;
  vy : N;
  color : option string;     (* [None]: [colors[i]] was out of range *)
  size : N;
  rotation : N;
  rotationSpeed : N;
  gravity : N;
  drag : N;
  life : N;
  decay : N;
  shape : Shape
}.

Arguments x {N} _.
Arguments y {N} _.
Arguments vx {N} _.
Arguments vy {N} _.
Arguments color {N} _.
Arguments size {N} _.
Arguments rotation {N} _.
Arguments rotationSpeed {N} _.
Arguments gravity {N} _.
Arguments drag {N} _.
Arguments life {N} _.
Arguments decay {N} _.
Arguments shape {N} _.

(** The [options] argument of [createParticle]; [None] is a missing key. *)
Record Options (N : Type) : Type := {
  colors : option (list string);
  spread : option N;
  velocity : option N;
  opt_gravity : option N;
  opt_drag : option N;
  opt_decay : option N
}.

Arguments colors {N} _.
Arguments spread {N} _.
Arguments velocity {N} _.
Arguments opt_gravity {N} _.
Arguments opt_drag {N} _.
Arguments opt_decay {N} _.

(** The random draws of one [createParticle] call, in the order of the
    calls to [Math.random()].  The two draws that do not enter the physics
    are given by their use: the index [Math.floor(Math.random() *
    colors.length)] and the test [Math.random() > 0.5]. *)
Record Draws (N : Type) : Type := {
  r_vx : N;
  r_vy : N;
  color_index : nat;
  r_size : N;
  r_rotation : N;
  r_rotationSpeed : N;
  is_rect : bool
}.

Arguments r_vx {N} _.
Arguments r_vy {N} _.
Arguments color_index {N} _.
Arguments r_size {N} _.
Arguments r_rotation {N} _.
Arguments r_rotationSpeed {N} _.
Arguments is_rect {N} _.

(** The state of the cannon: [this.particles] and [this.animationId]
    ([None] for [null]; a frame handle is a positive integer). *)
Record Cannon (N : Type) : Type := {
  particles : list (Particle N);
  animationId : option positive
}.

Arguments particles {N} _.
Arguments animationId {N} _.

Section Loop.

Context {N : Type} `{Number N}.

(** [options.k || d] *)
Definition or_default (o : option N) (d : N) : N :=
  match o with
  | Some v => if nonzero v then v else d
  | None => d
  end.

Definition default_colors : list string :=
  ["#FF3B30"; "#FF9500"; "#FFCC00"; "#34C759";
   "#007AFF"; "#5856D6"; "#AF52DE"; "#FF2D55"].

Definition no_options : Options N :=
  {| colors := None; spread := None; velocity := None;
     opt_gravity := None; opt_drag := None; opt_decay := None |}.

Definition createParticle (px py : N) (options : Options N) (r : Draws N)
    : Particle N :=
  let palette := default default_colors (colors options) in
  {| x := px;
     y := py;
     vx := mul (sub (r_vx r) (lit 0.5)) (or_default (spread options) (lit 15));
     vy := opp (add (mul (r_vy r) (or_default (velocity options) (lit 15)))
                    (lit 5));
     color := palette !! color_index r;
     size := add (mul (r_size r) (lit 10)) (lit 5);
     rotation := mul (r_rotation r) (lit 360);
     rotationSpeed := mul (sub (r_rotationSpeed r) (lit 0.5)) (lit 10);
     gravity := or_default (opt_gravity options) (lit 0.3);
     drag := or_default (opt_drag options) (lit 0.99);
     life := lit 1;
     decay := or_default (opt_decay options) (lit 0.01);
     shape := if is_rect r then rect else circle |}.

(** Single-field assignments [p.f = v]. *)
Definition set_x (v : N) (p : Particle N) : Particle N :=
  {| x := v; y := y p; vx := vx p; vy := vy p; color := color p;
     size := size p; rotation := rotation p;
     rotationSpeed := rotationSpeed p; gravity := gravity p; drag := drag p;
     life := life p; decay := decay p; shape := shape p |}.

Definition set_y (v : N) (p : Particle N) : Particle N :=
  {| x := x p; y := v; vx := vx p; vy := vy p; color := color p;
     size := size p; rotation := rotation p;
     rotationSpeed := rotationSpeed p; gravity := gravity p; drag := drag p;
     life := life p; decay := decay p; shape := shape p |}.

Definition set_vx (v : N) (p : Particle N) : Particle N :=
  {| x := x p; y := y p; vx := v; vy := vy p; color := color p;
     size := size p; rotation := rotation p;
     rotationSpeed := rotationSpeed p; gravity := gravity p; drag := drag p;
     life := life p; decay := decay p; shape := shape p |}.

Definition set_vy (v : N) (p : Particle N) : Particle N :=
  {| x := x p; y := y p; vx := vx p; vy := v; color := color p;
     size := size p; rotation := rotation p;
     rotationSpeed := rotationSpeed p; gravity := gravity p; drag := drag p;
     life := life p; decay := decay p; shape := shape p |}.

Definition set_rotation (v : N) (p : Particle N) : Particle N :=
  {| x := x p; y := y p; vx := vx p; vy := vy p; color := color p;
     size := size p; rotation := v;
     rotationSpeed := rotationSpeed p; gravity := gravity p; drag := drag p;
     life := life p; decay := decay p; shape := shape p |}.

Definition set_life (v : N) (p : Particle N) : Particle N :=
  {| x := x p; y := y p; vx := vx p; vy := vy p; color := color p;
     size := size p; rotation := rotation p;
     rotationSpeed := rotationSpeed p; gravity := gravity p; drag := drag p;
     life := v; decay := decay p; shape := shape p |}.

(** The "Update physics" block of [animate], statement by statement. *)
Definition update_physics (p : Particle N) : Particle N :=
  let p := set_x (add (x p) (vx p)) p in
  let p := set_y (add (y p) (vy p)) p in
  let p := set_vy (add (vy p) (gravity p)) p in
  let p := set_vx (mul (vx p) (drag p)) p in
  let p := set_vy (mul (vy p) (drag p)) p in
  let p := set_rotation (add (rotation p) (rotationSpeed p)) p in
  set_life (sub (life p) (decay p)) p.

(** [p.life <= 0 || p.y > this.canvas.height + 50] *)
Definition expired (height : N) (p : Particle N) : bool :=
  leb (life p) (lit 0) || ltb (add height (lit 50)) (y p).

(** The loop [for (let i = this.particles.length - 1; i >= 0; i--)], entered
    with [k = i + 1]: the particle at [i] is updated in place (and drawn,
    which changes nothing here), then spliced out when it is expired.  The
    index is always in range; if it were not, [p.x] would throw. *)
Fixpoint animate_loop (height : N) (k : nat) (ps : list (Particle N))
    : list (Particle N) :=
  match k with
  | 0 => ps
  | S i =>
      match ps !! i with
      | None => ps
      | Some p =>
          let p' := update_physics p in
          let ps' := <[i := p']> ps in
          animate_loop height i
            (if expired height p' then delete i ps' else ps')
      end
  end.

(** One call of [animate()]: [height] is [this.canvas.height] and [handle]
    the value [requestAnimationFrame] returns if it is called. *)
Definition animate (height : N) (handle : positive) (c : Cannon N)
    : Cannon N :=
  let ps := animate_loop height (length (particles c)) (particles c) in
  {| particles := ps;
     animationId := if bool_decide (0 < length ps) then Some handle else None |}.

(** The particles after [n] animation frames with nothing fired meanwhile. *)
Fixpoint frames (height : N) (n : nat) (ps : list (Particle N))
    : list (Particle N) :=
  match n with
  | 0 => ps
  | S m => frames height m (animate_loop height (length ps) ps)
  end.

(** [fire(x, y, count, options)]: [draws i] are the random draws of the
    [i]-th particle. *)
Fixpoint push_particles (px py : N) (options : Options N)
    (draws : nat → Draws N) (i count : nat) (ps : list (Particle N))
    : list (Particle N) :=
  match count with
  | 0 => ps
  | S rest =>
      push_particles px py options draws (S i) rest
        (ps ++ [createParticle px py options (draws i)])
  end.

Definition fire (height : N) (handle : positive) (px py : N) (count : nat)
    (options : Options N) (draws : nat → Draws N) (c : Cannon N)
    : Cannon N :=
  let c' := {| particles :=
                 push_particles px py options draws 0 count (particles c);
               animationId := animationId c |} in
  match animationId c' with
  | None => animate height handle c'
  | Some _ => c'
  end.

(** The life of a particle after [j] more frames: [life -= decay], [j]
    times. *)
Definition life_after (j : nat) (p : Particle N) : N :=
  Nat.iter j (λ l, sub l (decay p)) (life p).

(** Sample particles: [createParticle] with no options and every random draw
    equal to 0.5, in the middle of the canvas and close to its bottom. *)
Definition middle_draws : Draws N :=
  {| r_vx := lit 0.5; r_vy := lit 0.5; color_index := 0; r_size := lit 0.5;
     r_rotation := lit 0.5; r_rotationSpeed := lit 0.5; is_rect := true |}.

Definition middle_particle : Particle N :=
  createParticle (lit 100) (lit 100) no_options middle_draws.

Definition low_particle : Particle N :=
  createParticle (lit 100) (lit 617.5) no_options middle_draws.

End Loop.

(** In exact arithmetic, a number of frames after which the life of [p] is
    used up when its decay is positive: more than [life / decay]. *)
Definition frames_needed (p : Particle Q) : nat :=
  S (Z.to_nat (Qceiling (life p / decay p))).

(** [fire(100, 100, 1, { gravity: 5e-324, drag: 0.5, decay: 2 ** -60 })] with
    every random draw equal to 0.5, in binary64: the decay is positive and
    finite, and so small that [1 - decay] rounds to [1]. *)
Definition tiny_decay_options : Options float :=
  {| colors := None; spread := None; velocity := None;
     opt_gravity := Some 0x0.0000000000001p-1022%float;
     opt_drag := Some 0.5%float;
     opt_decay := Some 0x1p-60%float |}.

Definition tiny_decay_particle : Particle float :=
  createParticle 100%float 100%float tiny_decay_options middle_draws.

(** [fire(100, 100, 1, { decay: 0.3 })] with every random draw equal to 0.5,
    in binary64. *)
Definition fast_decay_options : Options float :=
  {| colors := None; spread := None; velocity := None;
     opt_gravity := None; opt_drag := None;
     opt_decay := Some 0.3%float |}.

Definition fast_decay_particle : Particle float :=
  createParticle 100%float 100%float fast_decay_options middle_draws.

(** In binary64: a particle created without a [decay] option ([life = 1],
    [decay = 0.01]) that has been through [k] frames. *)
Definition default_decay_aged (k : nat) (p : Particle float) : Prop :=
  decay p = 0.01%float
  ∧ life p = Nat.iter k (λ l, PrimFloat.sub l 0.01%float) 1%float.

End ConfettiCannon.

(** ** The page scripts as clients of the interface *)

(** The contract of [uuidv4()] along a request sequence: the identifier
    each [POST] is given is carried by no item stored at that moment. *)
Fixpoint fresh_uuids (rs : list Request) (items : list GroceryItem) : bool :=
  match rs with
  | [] => true
  | r :: rest =>
      match r with
      | PostItem uuid _ _ => bool_decide (uuid ∉ id <$> items)
      | _ => true
      end
      && fresh_uuids rest (handle r items).2
  end.

(** [clearBoughtItems()] of the shopping page, [src/unnamed/part_001]:
    nothing is sent when no item of [allItems] is bought or when the user
    does not confirm; otherwise one [DELETE /api/items/:id] per bought
    item, in the order of [allItems], each awaited before the next.  A
    [fetch] that rejects ends the loop in the [catch]: [delivered] is the
    number of requests that reached the server.  The result is what the
    in-memory server answered and its array afterwards. *)
Definition clearBoughtItems (confirmed : bool) (delivered : nat)
    (allItems server : list GroceryItem)
    : list Response * list GroceryItem :=
  let boughtItems := filter (λ it, truthy (bought it)) allItems in
  if bool_decide (length boughtItems = 0) then ([], server)
  else if confirmed
  then serve (take delivered ((λ it, DeleteItem (id it)) <$> boughtItems))
         server
  else ([], server).

(** [toggleItem(id, event)] of the shopping page against the in-memory
    server.  The item is the first of [allItems] with the identifier; its
    [bought] is overwritten with the negation before the request
    [PUT /api/items/:id { bought: newBoughtStatus }] is sent.  When the
    handler throws before the server has processed the request
    ([completed = false]: no element for the item, or [fetch] rejected) the
    [catch] writes [!newBoughtStatus] back.  The result is [allItems] and
    the server's array afterwards. *)
Definition toggleItem (completed : bool) (wanted : string)
    (allItems server : list GroceryItem)
    : list GroceryItem * list GroceryItem :=
  match findIndex (has_id wanted) allItems with
  | None => (allItems, server)
  | Some i =>
      match allItems !! i with
      | None => (allItems, server)
      | Some item =>
          let newBoughtStatus := negb (truthy (bought item)) in
          if completed
          then (alter (set_bought (JBool newBoughtStatus)) i allItems,
                (InMemory.put_item wanted
                   (JObj {[ "bought" := JBool newBoughtStatus ]}) server).2)
          else (alter (set_bought (JBool (negb newBoughtStatus))) i allItems,
                server)
      end
  end.

(** ** The other launchers of the cannon, [src/unnamed/part_000] *)

Module Launchers.

Import ConfettiCannon.

(** The functions of [Math] the launchers use besides the arithmetic of
    [Number].  [Math.cos] and [Math.sin] are approximations that differ
    between engines; nothing proved here depends on their values. *)
Class Maths (N : Type) : Type := {
  abs : N → N;          (* Math.abs(a) *)
  div : N → N → N;      (* a / b *)
  of_nat : nat → N;     (* a loop counter or a count as a number *)
  PI : N;               (* Math.PI *)
  cos : N → N;          (* Math.cos(a) *)
  sin : N → N           (* Math.sin(a) *)
}.

(** Binary64, with the two trigonometric functions left open. *)
Definition binary64_maths (cosine sine : float → float) : Maths float :=
  {| abs := PrimFloat.abs;
     div := PrimFloat.div;
     of_nat n := float_of_Z (Z.of_nat n);
     PI := 0x1.921fb54442d18p+1%float;
     cos := cosine;
     sin := sine |}.

Section Launch.

Context {N : Type} `{Number N} `{Maths N}.

(** The browser runs the callback that [requestAnimationFrame] registered,
    if [animate] registered one. *)
Definition frame (height : N) (handle : positive) (c : Cannon N) : Cannon N :=
  match animationId c with
  | Some _ => animate height handle c
  | None => c
  end.

(** [if (!this.animationId) { this.animate(); }] *)
Definition animate_if_idle (height : N) (handle : positive) (c : Cannon N)
    : Cannon N :=
  match animationId c with
  | None => animate height handle c
  | Some _ => c
  end.

(** [for (let i = 0; i < count; i++) this.particles.push(make(i))], entered
    at [i] with [count - i] iterations to go. *)
Fixpoint push_each (make : nat → Particle N) (i togo : nat)
    (ps : list (Particle N)) : list (Particle N) :=
  match togo with
  | 0 => ps
  | S rest => push_each make (S i) rest (ps ++ [make i])
  end.

(** [for (let i = 0; i < count / 2; i++) this.particles.push(make(i))]:
    the test [i < count / 2] on numbers holds exactly when [2 * i < count].
    [fuel] bounds the number of iterations; [count] is enough. *)
Fixpoint push_half (make : nat → Particle N) (count fuel i : nat)
    (ps : list (Particle N)) : list (Particle N) :=
  match fuel with
  | 0 => ps
  | S fuel' =>
      if bool_decide (2 * i < count)
      then push_half make count fuel' (S i) (ps ++ [make i])
      else ps
  end.

(** [{ spread: 10, velocity: 18 }] *)
Definition celebrate_options : Options N :=
  {| colors := None; spread := Some (lit 10); velocity := Some (lit 18);
     opt_gravity := None; opt_drag := None; opt_decay := None |}.

(** A particle of the left cannon: [particle.vx = Math.abs(particle.vx) + 5]. *)
Definition left_particle (py : N) (r : Draws N) : Particle N :=
  let particle := createParticle (lit 0) py celebrate_options r in
  set_vx (add (abs (vx particle)) (lit 5)) particle.

(** A particle of the right cannon:
    [particle.vx = -Math.abs(particle.vx) - 5]. *)
Definition right_particle (width py : N) (r : Draws N) : Particle N :=
  let particle := createParticle width py celebrate_options r in
  set_vx (sub (opp (abs (vx particle))) (lit 5)) particle.

(** [celebrate(count)]; [width] and [height] are those of the canvas. *)
Definition celebrate (width height : N) (handle : positive) (count : nat)
    (left_draws right_draws : nat → Draws N) (c : Cannon N) : Cannon N :=
  let py := mul height (lit 0.7) in
  let ps := push_half (λ i, left_particle py (left_draws i)) count count 0
              (particles c) in
  let ps := push_half (λ i, right_particle width py (right_draws i))
              count count 0 ps in
  animate_if_idle height handle
    {| particles := ps; animationId := animationId c |}.

(** The [i]-th particle of [burst(x, y, count)]; [r_velocity] is the draw of
    [Math.random() * 10 + 8], made before those of [createParticle]. *)
Definition burst_particle (px py : N) (count i : nat) (r_velocity : N)
    (r : Draws N) : Particle N :=
  let angle := div (mul (mul PI (lit 2)) (of_nat i)) (of_nat count) in
  let velocity := add (mul r_velocity (lit 10)) (lit 8) in
  let particle := createParticle px py no_options r in
  let particle := set_vx (mul (cos angle) velocity) particle in
  set_vy (mul (sin angle) velocity) particle.

Definition burst (height : N) (handle : positive) (px py : N) (count : nat)
    (draws : nat → N * Draws N) (c : Cannon N) : Cannon N :=
  animate_if_idle height handle
    {| particles :=
         push_each
           (λ i, burst_particle px py count i (draws i).1 (draws i).2)
           0 count (particles c);
       animationId := animationId c |}.

(** [{ velocity: 2, gravity: 0.2 }] *)
Definition rain_options : Options N :=
  {| colors := None; spread := None; velocity := Some (lit 2);
     opt_gravity := Some (lit 0.2); opt_drag := None; opt_decay := None |}.

(** A rain drop: [x = Math.random() * this.canvas.width], created at
    [y = -20], then [particle.vy = Math.abs(particle.vy)]. *)
Definition rain_particle (width r_x : N) (r : Draws N) : Particle N :=
  let particle := createParticle (mul r_x width) (opp (lit 20)) rain_options r in
  set_vy (abs (vy particle)) particle.

(** One run of the callback that [rain] gives to [setInterval]: three
    drops are pushed; [animate] is not called. *)
Definition rain_tick (width : N) (draws : nat → N * Draws N) (c : Cannon N)
    : Cannon N :=
  {| particles :=
       push_each (λ i, rain_particle width (draws i).1 (draws i).2) 0 3
         (particles c);
     animationId := animationId c |}.

(** The call [rain(count, duration)] itself: it registers the interval and
    the timeout that clears it, which run later, and then starts the
    animation if the cannon is idle.  [count] is not used by the code. *)
Definition rain (height : N) (handle : positive) (c : Cannon N) : Cannon N :=
  animate_if_idle height handle c.

End Launch.

(** Sample inputs in binary64: every random draw equal to 0.5, and, for the
    two functions the engine approximates, their values at angle 0. *)
Definition sample_maths : Maths float :=
  binary64_maths (λ _, 1%float) (λ _, 0%float).

Definition sample_draws : nat → Draws float := λ _, middle_draws.

Definition sample_burst_draws : nat → float * Draws float :=
  λ _, (0.5%float, middle_draws).

Definition new_cannon : Cannon float :=
  {| particles := []; animationId := None |}.

Definition busy_cannon : Cannon float :=
  {| particles := [middle_particle]; animationId := Some 7%positive |}.

End Launchers.

(** ** The emoji explosion, [src/unnamed/part_000] *)

Module EmojiExplosion.

Import ConfettiCannon Launchers.

(** One entry of [this.emojis]; [el] is the [div] element made for it. *)
Record Emoji (N : Type) : Type := {
  el : positive;
  x : N;
  y : N;
  vx : N;
  vy : N;
  rotation : N;
  rotationSpeed : N;
  life : N;
  decay : N
}.

Arguments el {N} _.
Arguments x {N} _.
Arguments y {N} _.
Arguments vx {N} _.
Arguments vy {N} _.
Arguments rotation {N} _.
Arguments rotationSpeed {N} _.
Arguments life {N} _.
Arguments decay {N} _.

(** The state: [this.emojis], [this.animationId], and of the document the
    elements that [explode] appended to [document.body] and that are still
    attached, in document order.  The style properties the code assigns to
    an element are never read back and are left out. *)
Record Explosion (N : Type) : Type := {
  emojis : list (Emoji N);
  animationId : option positive;
  body : list positive
}.

Arguments emojis {N} _.
Arguments animationId {N} _.
Arguments body {N} _.

(** The three random draws of one iteration of [explode], in order: for
    the velocity, for the font size, for the rotation speed. *)
Record EmojiDraws (N : Type) : Type := {
  r_velocity : N;
  r_font : N;
  r_spin : N
}.

Arguments r_velocity {N} _.
Arguments r_font {N} _.
Arguments r_spin {N} _.

Section Explode.

Context {N : Type} `{Number N} `{Maths N}.

(** The object pushed by the [i]-th iteration of [explode(x, y, emoji,
    count)]; [element] is what [document.createElement('div')] returned. *)
Definition new_emoji (px py : N) (count i : nat) (element : positive)
    (r : EmojiDraws N) : Emoji N :=
  let angle := div (mul (mul PI (lit 2)) (of_nat i)) (of_nat count) in
  let velocity := add (mul (r_velocity r) (lit 6)) (lit 4) in
  {| el := element;
     x := px;
     y := py;
     vx := mul (cos angle) velocity;
     vy := sub (mul (sin angle) velocity) (lit 5);
     rotation := lit 0;
     rotationSpeed := mul (sub (r_spin r) (lit 0.5)) (lit 20);
     life := lit 1;
     decay := lit 0.02 |}.

(** The loop of [explode]: the element is appended to the body, the emoji
    to [this.emojis]. *)
Fixpoint explode_loop (px py : N) (count : nat) (elements : nat → positive)
    (draws : nat → EmojiDraws N) (i togo : nat)
    (es : list (Emoji N)) (attached : list positive)
    : list (Emoji N) * list positive :=
  match togo with
  | 0 => (es, attached)
  | S rest =>
      explode_loop px py count elements draws (S i) rest
        (es ++ [new_emoji px py count i (elements i) (draws i)])
        (attached ++ [elements i])
  end.

Definition set_x (v : N) (e : Emoji N) : Emoji N :=
  {| el := el e; x := v; y := y e; vx := vx e; vy := vy e;
     rotation := rotation e; rotationSpeed := rotationSpeed e;
     life := life e; decay := decay e |}.

Definition set_y (v : N) (e : Emoji N) : Emoji N :=
  {| el := el e; x := x e; y := v; vx := vx e; vy := vy e;
     rotation := rotation e; rotationSpeed := rotationSpeed e;
     life := life e; decay := decay e |}.

Definition set_vy (v : N) (e : Emoji N) : Emoji N :=
  {| el := el e; x := x e; y := y e; vx := vx e; vy := v;
     rotation := rotation e; rotationSpeed := rotationSpeed e;
     life := life e; decay := decay e |}.

Definition set_rotation (v : N) (e : Emoji N) : Emoji N :=
  {| el := el e; x := x e; y := y e; vx := vx e; vy := vy e;
     rotation := v; rotationSpeed := rotationSpeed e;
     life := life e; decay := decay e |}.

Definition set_life (v : N) (e : Emoji N) : Emoji N :=
  {| el := el e; x := x e; y := y e; vx := vx e; vy := vy e;
     rotation := rotation e; rotationSpeed := rotationSpeed e;
     life := v; decay := decay e |}.

(** The five assignments at the head of the loop body of [animate]. *)
Definition move (e : Emoji N) : Emoji N :=
  let e := set_x (add (x e) (vx e)) e in
  let e := set_y (add (y e) (vy e)) e in
  let e := set_vy (add (vy e) (lit 0.3)) e in
  let e := set_rotation (add (rotation e) (rotationSpeed e)) e in
  set_life (sub (life e) (decay e)) e.

(** [e.life <= 0] *)
Definition faded (e : Emoji N) : bool := leb (life e) (lit 0).

(** [element.remove()]: the element leaves its parent. *)
Definition remove_element (element : positive) (attached : list positive)
    : list positive :=
  filter (λ other, other ≠ element) attached.

(** The loop [for (let i = this.emojis.length - 1; i >= 0; i--)] of
    [animate], entered with [k = i + 1]. *)
Fixpoint animate_loop (k : nat) (es : list (Emoji N))
    (attached : list positive) : list (Emoji N) * list positive :=
  match k with
  | 0 => (es, attached)
  | S i =>
      match es !! i with
      | None => (es, attached)
      | Some e =>
          let e' := move e in
          let es' := <[i := e']> es in
          if faded e'
          then animate_loop i (delete i es') (remove_element (el e') attached)
          else animate_loop i es' attached
      end
  end.

Definition animate (handle : positive) (st : Explosion N) : Explosion N :=
  let '(es, attached) :=
    animate_loop (length (emojis st)) (emojis st) (body st) in
  {| emojis := es;
     animationId := if bool_decide (0 < length es) then Some handle else None;
     body := attached |}.

Definition explode (handle : positive) (px py : N) (count : nat)
    (elements : nat → positive) (draws : nat → EmojiDraws N)
    (st : Explosion N) : Explosion N :=
  let '(es, attached) :=
    explode_loop px py count elements draws 0 count (emojis st) (body st) in
  let st' := {| emojis := es; animationId := animationId st;
                body := attached |} in
  match animationId st' with
  | None => animate handle st'
  | Some _ => st'
  end.

(** The browser runs the pending animation frame callback, if any. *)
Definition frame (handle : positive) (st : Explosion N) : Explosion N :=
  match animationId st with
  | Some _ => animate handle st
  | None => st
  end.

End Explode.

(** In binary64: an emoji made by [explode] ([life = 1], [decay = 0.02])
    that has been through [k] frames. *)
Definition aged (k : nat) (e : Emoji float) : Prop :=
  decay e = 0.02%float
  ∧ life e = Nat.iter k (λ l, PrimFloat.sub l 0.02%float) 1%float.

(** Sample inputs in binary64. *)
Definition sample_elements : nat → positive := Pos.of_succ_nat.

Definition sample_emoji_draws : nat → EmojiDraws float :=
  λ _, {| r_velocity := 0.5%float; r_font := 0.5%float;
          r_spin := 0.5%float |}.

Definition no_explosion : Explosion float :=
  {| emojis := []; animationId := None; body := [] |}.

End EmojiExplosion.

(** ** The shopping page's completion check, [src/unnamed/part_001] *)

(** [checkCompletion()]: from [allItems] and the flag [celebrationShown] to
    the new value of the flag and whether [showCelebration] is scheduled. *)
Definition checkCompletion (allItems : list GroceryItem)
    (celebrationShown : bool) : bool * bool :=
  let total := length allItems in
  let nbought := length (filter (λ i, truthy (bought i)) allItems) in
  if bool_decide (0 < total) && bool_decide (nbought = total)
     && negb celebrationShown
  then (true, true)
  else if bool_decide (nbought < total) then (false, false)
  else (celebrationShown, false).

(** The part of [clearBoughtItems()] that concerns [celebrationShown]: the
    flag is reset after the loop, so only when an item of [allItems] is
    bought, the user confirms and no [fetch] of the loop rejects
    ([resolved]); otherwise the function returns, or ends in its [catch],
    before the assignment. *)
Definition clearBoughtItems_celebrationShown (confirmed resolved : bool)
    (allItems : list GroceryItem) (celebrationShown : bool) : bool :=
  let boughtItems := filter (λ i, truthy (bought i)) allItems in
  if bool_decide (length boughtItems = 0) then celebrationShown
  else if confirmed
  then if resolved then false else celebrationShown
  else celebrationShown.

(** What the page does that reads or writes [celebrationShown], which is
    [false] when the page is loaded: a call of [checkCompletion()] (at the
    end of a [toggleItem] whose request resolved) and a call of
    [clearBoughtItems()], each with the [allItems] of that moment. *)
Inductive PageEvent : Type :=
  | Checked (allItems : list GroceryItem)
  | Cleared (confirmed resolved : bool) (allItems : list GroceryItem).

(** The new value of [celebrationShown] and whether [showCelebration] is
    scheduled. *)
Definition page_step (ev : PageEvent) (celebrationShown : bool)
    : bool * bool :=
  match ev with
  | Checked allItems => checkCompletion allItems celebrationShown
  | Cleared confirmed resolved allItems =>
      (clearBoughtItems_celebrationShown confirmed resolved allItems
         celebrationShown,
       false)
  end.

(** For each event of a sequence, whether it scheduled the celebration. *)
Fixpoint scheduled_celebrations (evs : list PageEvent)
    (celebrationShown : bool) : list bool :=
  match evs with
  | [] => []
  | ev :: rest =>
      let '(shown, scheduled) := page_step ev celebrationShown in
      scheduled :: scheduled_celebrations rest shown
  end.

(** The events after which [celebrationShown] is [false] whatever it was: a
    [checkCompletion()] that sees an item that is not bought, and a
    [clearBoughtItems()] that finds a bought item, is confirmed and whose
    requests all resolve. *)
Definition resets_celebrationShown (ev : PageEvent) : Prop :=
  match ev with
  | Checked allItems => ∃ it, it ∈ allItems ∧ truthy (bought it) = false
  | Cleared confirmed resolved allItems =>
      confirmed = true ∧ resolved = true
      ∧ ∃ it, it ∈ allItems ∧ truthy (bought it) = true
  end.

(** * Properties *)

(** ** Facts about the array helpers *)

Lemma has_id_true (wanted : string) (it : GroceryItem) :
  has_id wanted it = true ↔ id it = wanted.
Proof. unfold has_id. apply String.eqb_eq. Qed.

Lemma has_id_false (wanted : string) (it : GroceryItem) :
  has_id wanted it = false ↔ id it ≠ wanted.
Proof. unfold has_id. apply String.eqb_neq. Qed.

Lemma findIndex_absent (wanted : string) (items : list GroceryItem) :
  wanted ∉ id <$> items → findIndex (has_id wanted) items = None.
Proof.
  induction items as [|it items IH]; simpl; [done|].
  intros Hnot. apply not_elem_of_cons in Hnot as [Hne Hrest].
  assert (has_id wanted it = false) as -> by (apply has_id_false; congruence).
  by rewrite IH.
Qed.

Lemma findIndex_first (wanted : string) (pre post : list GroceryItem)
    (it : GroceryItem) :
  wanted ∉ id <$> pre → id it = wanted →
  findIndex (has_id wanted) (pre ++ it :: post) = Some (length pre).
Proof.
  intros Hpre Hid. induction pre as [|a pre IH]; simpl.
  - by assert (has_id wanted it = true) as -> by by apply has_id_true.
  - simpl in Hpre. apply not_elem_of_cons in Hpre as [Hne Hrest].
    assert (has_id wanted a = false) as -> by (apply has_id_false; congruence).
    by rewrite IH.
Qed.

Lemma alter_middle {A : Type} (f : A → A) (pre post : list A) (a : A) :
  alter f (length pre) (pre ++ a :: post) = pre ++ f a :: post.
Proof.
  rewrite alter_app_r_alt by lia. by rewrite Nat.sub_diag.
Qed.

Lemma item_response_middle (pre post : list GroceryItem) (it : GroceryItem) :
  item_response (length pre) (pre ++ it :: post)
  = {| status := 200; payload := PItem it |}.
Proof. unfold item_response. by rewrite list_lookup_middle. Qed.

(** What the three conditional assignments leave alone. *)
Lemma apply_patch_frame (body : JsVal) (it : GroceryItem) :
  id (apply_patch body it) = id it
  ∧ name (apply_patch body it) = name it
  ∧ category (apply_patch body it) = category it
  ∧ createdAt (apply_patch body it) = createdAt it
  ∧ boughtAt (apply_patch body it) = boughtAt it.
Proof.
  unfold apply_patch, assign_if_defined.
  repeat case_match; simpl; done.
Qed.

Lemma apply_patch_fields (body : JsVal) (it : GroceryItem) :
  bought (apply_patch body it)
    = (if is_defined (prop "bought" body) then prop "bought" body
       else bought it)
  ∧ quantity (apply_patch body it)
    = (if is_defined (prop "quantity" body) then prop "quantity" body
       else quantity it)
  ∧ notes (apply_patch body it)
    = (if is_defined (prop "notes" body) then prop "notes" body
       else notes it).
Proof.
  unfold apply_patch, assign_if_defined.
  repeat case_match; simpl; done.
Qed.

Lemma stamp_boughtAt_id (cleared : JsVal) (now : string) (body : JsVal)
    (it : GroceryItem) :
  id (stamp_boughtAt cleared now body it) = id it.
Proof. unfold stamp_boughtAt. repeat case_match; done. Qed.

(** ** Deleting an unknown identifier *)

(** C5. For every collection and every identifier that no stored item
    carries, [DELETE /api/items/:id] answers 404 with the body
    [{ error: 'Item not found' }] and leaves the collection exactly as it
    was.  Proved for the in-memory server and, with it, for the file-backed
    one (array and data file untouched) and the BigQuery-backed one (whatever
    the warehouse would have answered: it is not asked). *)
Theorem delete_unknown_id_is_404 (items : list GroceryItem) (wanted : string) :
  wanted ∉ id <$> items →
  InMemory.delete_item wanted items
    = ({| status := 404; payload := PError "Item not found" |}, items)
  ∧ (∀ written disk,
       FileBacked.delete_item written wanted
         {| FileBacked.groceryItems := items; FileBacked.dataFile := disk |}
       = ({| status := 404; payload := PError "Item not found" |},
          {| FileBacked.groceryItems := items;
             FileBacked.dataFile := disk |}))
  ∧ (∀ stored,
       BigQueryBacked.delete_item stored wanted items
       = ({| status := 404; payload := PError "Item not found" |}, items)).
Proof.
  intros Habsent. apply findIndex_absent in Habsent.
  unfold InMemory.delete_item, FileBacked.delete_item,
    BigQueryBacked.delete_item; simpl.
  rewrite Habsent. done.
Qed.

Lemma delete_unknown_id_is_404_witness :
  InMemory.delete_item "id-eggs" [milk; bread]
    = ({| status := 404; payload := PError "Item not found" |}, [milk; bread])
  ∧ (∀ written disk,
       FileBacked.delete_item written "id-eggs"
         {| FileBacked.groceryItems := [milk; bread];
            FileBacked.dataFile := disk |}
       = ({| status := 404; payload := PError "Item not found" |},
          {| FileBacked.groceryItems := [milk; bread];
             FileBacked.dataFile := disk |}))
  ∧ (∀ stored,
       BigQueryBacked.delete_item stored "id-eggs" [milk; bread]
       = ({| status := 404; payload := PError "Item not found" |},
          [milk; bread])).
Proof.
  apply (delete_unknown_id_is_404 [milk; bread] "id-eggs").
  apply (bool_decide_unpack _). vm_compute. exact I.
Defined.

(** ** Patching an item *)

Lemma put_item_first (pre post : list GroceryItem) (it : GroceryItem)
    (body : JsVal) :
  id it ∉ id <$> pre →
  InMemory.put_item (id it) body (pre ++ it :: post)
  = ({| status := 200; payload := PItem (apply_patch body it) |},
     pre ++ apply_patch body it :: post).
Proof.
  intros Hpre. unfold InMemory.put_item.
  rewrite (findIndex_first (id it) pre post it Hpre eq_refl).
  by rewrite alter_middle, item_response_middle.
Qed.

(** C8. A [PUT /api/items/:id] on the in-memory server.  When no stored item
    carries the identifier the answer is 404 with an error body and the
    collection is unchanged.  Otherwise the target is the first item with
    that identifier, say the collection is [pre ++ it :: post]: the answer
    is 200 with the updated item [it'], the collection becomes
    [pre ++ it' :: post] (every other item untouched, in place), [it'] keeps
    the [id], [name], [category], [createdAt] (and [boughtAt]) of [it], and
    each of [bought], [quantity], [notes] takes the body's value when the
    body has that key and keeps its old value when it has not. *)
Theorem put_changes_only_the_fields_present
    (pre post : list GroceryItem) (it : GroceryItem) (wanted : string)
    (body : JsVal) (items : list GroceryItem) :
  id it ∉ id <$> pre →
  wanted ∉ id <$> items →
  (∃ it',
     InMemory.put_item (id it) body (pre ++ it :: post)
       = ({| status := 200; payload := PItem it' |}, pre ++ it' :: post)
     ∧ id it' = id it ∧ name it' = name it ∧ category it' = category it
     ∧ createdAt it' = createdAt it ∧ boughtAt it' = boughtAt it
     ∧ (prop "bought" body = JUndefined → bought it' = bought it)
     ∧ (prop "bought" body ≠ JUndefined → bought it' = prop "bought" body)
     ∧ (prop "quantity" body = JUndefined → quantity it' = quantity it)
     ∧ (prop "quantity" body ≠ JUndefined →
          quantity it' = prop "quantity" body)
     ∧ (prop "notes" body = JUndefined → notes it' = notes it)
     ∧ (prop "notes" body ≠ JUndefined → notes it' = prop "notes" body))
  ∧ InMemory.put_item wanted body items
    = ({| status := 404; payload := PError "Item not found" |}, items).
Proof.
  intros Hpre Habsent. split.
  - exists (apply_patch body it). split; [by apply put_item_first|].
    destruct (apply_patch_frame body it) as (-> & -> & -> & -> & ->).
    destruct (apply_patch_fields body it) as (-> & -> & ->).
    repeat split; try (intros ->; reflexivity);
      intros Hdef; by destruct (prop _ body).
  - unfold InMemory.put_item. by rewrite findIndex_absent.
Qed.

Lemma put_changes_only_the_fields_present_witness :
  (∃ it',
     InMemory.put_item (id bread) (JObj {[ "quantity" := JNum 4 ]})
       ([milk] ++ bread :: [soap])
       = ({| status := 200; payload := PItem it' |}, [milk] ++ it' :: [soap])
     ∧ id it' = id bread ∧ name it' = name bread
     ∧ category it' = category bread
     ∧ createdAt it' = createdAt bread ∧ boughtAt it' = boughtAt bread
     ∧ (prop "bought" (JObj {[ "quantity" := JNum 4 ]}) = JUndefined →
          bought it' = bought bread)
     ∧ (prop "bought" (JObj {[ "quantity" := JNum 4 ]}) ≠ JUndefined →
          bought it' = prop "bought" (JObj {[ "quantity" := JNum 4 ]}))
     ∧ (prop "quantity" (JObj {[ "quantity" := JNum 4 ]}) = JUndefined →
          quantity it' = quantity bread)
     ∧ (prop "quantity" (JObj {[ "quantity" := JNum 4 ]}) ≠ JUndefined →
          quantity it' = prop "quantity" (JObj {[ "quantity" := JNum 4 ]}))
     ∧ (prop "notes" (JObj {[ "quantity" := JNum 4 ]}) = JUndefined →
          notes it' = notes bread)
     ∧ (prop "notes" (JObj {[ "quantity" := JNum 4 ]}) ≠ JUndefined →
          notes it' = prop "notes" (JObj {[ "quantity" := JNum 4 ]})))
  ∧ InMemory.put_item "id-eggs" (JObj {[ "quantity" := JNum 4 ]})
      [milk; bread; soap]
    = ({| status := 404; payload := PError "Item not found" |},
       [milk; bread; soap]).
Proof.
  apply (put_changes_only_the_fields_present
           [milk] [soap] bread "id-eggs"
           (JObj {[ "quantity" := JNum 4 ]}) [milk; bread; soap]).
  - apply (bool_decide_unpack _). vm_compute. exact I.
  - apply (bool_decide_unpack _). vm_compute. exact I.
Defined.

(** ** Creating an item *)

Lemma js_or_cases (v d : JsVal) :
  truthy v = true ∧ js_or v d = v
  ∨ truthy v = false ∧ v ≠ JUndefined ∧ js_or v d = d
  ∨ v = JUndefined ∧ js_or v d = d.
Proof.
  unfold js_or. destruct (truthy v) eqn:T; [by left|].
  destruct v; (by right; right) || (by right; left).
Qed.


(** C7, the claim as stated fails.  A supplied quantity of [0] is not
    carried by the created item: [0 || 1] is [1]. *)
Lemma post_supplied_zero_quantity_not_carried :
  let body := JObj {[ "name" := JStr "milk"; "quantity" := JNum 0 ]} in
  ∃ it,
    InMemory.post_item "id-1" "2024-05-01T10:00:00.000Z" body []
      = ({| status := 201; payload := PItem it |}, [it])
    ∧ prop "quantity" body = JNum 0
    ∧ quantity it = JNum 1
    ∧ quantity it ≠ prop "quantity" body.
Proof.
  eexists. split; [reflexivity|].
  split; [reflexivity|]. split; [reflexivity|]. discriminate.
Qed.

(** C7, amended.  [POST /api/items] on the in-memory server answers 201 with
    the created item, which carries the generated identifier, the creation
    timestamp, [bought = false], no [boughtAt], the body's [name], and for
    each of [quantity], [category], [notes] the body's value when that value
    is truthy and the default ([1], ['other'], ['']) when it is supplied but
    falsy or when the key is omitted; the item is appended to the collection and a
    [GET /api/items] that follows answers 200 with the old items followed by
    that item. *)
Theorem post_creates_item_with_defaults
    (uuid now : string) (body : JsVal) (items : list GroceryItem) :
  ∃ it,
    InMemory.post_item uuid now body items
      = ({| status := 201; payload := PItem it |}, items ++ [it])
    ∧ id it = uuid ∧ createdAt it = JStr now ∧ bought it = JBool false
    ∧ boughtAt it = JUndefined ∧ name it = prop "name" body
    ∧ (truthy (prop "quantity" body) = true
         ∧ quantity it = prop "quantity" body
       ∨ truthy (prop "quantity" body) = false
         ∧ prop "quantity" body ≠ JUndefined ∧ quantity it = JNum 1
       ∨ prop "quantity" body = JUndefined ∧ quantity it = JNum 1)
    ∧ (truthy (prop "category" body) = true
         ∧ category it = prop "category" body
       ∨ truthy (prop "category" body) = false
         ∧ prop "category" body ≠ JUndefined ∧ category it = JStr "other"
       ∨ prop "category" body = JUndefined ∧ category it = JStr "other")
    ∧ (truthy (prop "notes" body) = true ∧ notes it = prop "notes" body
       ∨ truthy (prop "notes" body) = false
         ∧ prop "notes" body ≠ JUndefined ∧ notes it = JStr ""
       ∨ prop "notes" body = JUndefined ∧ notes it = JStr "")
    ∧ (InMemory.get_items (InMemory.post_item uuid now body items).2).1
      = {| status := 200; payload := PItems (items ++ [it]) |}.
Proof.
  exists (InMemory.newItem uuid now body).
  unfold InMemory.post_item, InMemory.get_items, InMemory.newItem.
  simpl. repeat split; apply js_or_cases.
Qed.

Lemma prop_insert_other (k k' : string) (v : JsVal)
    (props : gmap string JsVal) :
  k ≠ k' → prop k' (JObj (<[k := v]> props)) = prop k' (JObj props).
Proof. intros Hne. unfold prop. by rewrite lookup_insert_ne. Qed.

Lemma prop_delete_other (k k' : string) (props : gmap string JsVal) :
  k ≠ k' → prop k' (JObj (delete k props)) = prop k' (JObj props).
Proof. intros Hne. unfold prop. by rewrite lookup_delete_ne. Qed.

Lemma prop_insert_same (k : string) (v : JsVal) (props : gmap string JsVal) :
  prop k (JObj (<[k := v]> props)) = v.
Proof. unfold prop. by rewrite lookup_insert_eq. Qed.

Lemma prop_delete_same (k : string) (props : gmap string JsVal) :
  prop k (JObj (delete k props)) = JUndefined.
Proof. unfold prop. by rewrite lookup_delete_eq. Qed.

(** C10. A [POST /api/items] whose body carries a falsy [quantity] ([0],
    [null], [false], the empty string) creates the same item, gives the same
    response and leaves the same collection as the request with the
    [quantity] key removed, and the item it stores and returns has quantity
    [1]: on the in-memory server, and on the BigQuery-backed one whatever
    the warehouse insert does (when it succeeds the item is created with
    quantity [1]; when it throws both requests get the same 500). *)
Theorem post_falsy_quantity_is_one
    (uuid now : string) (props : gmap string JsVal) (q : JsVal)
    (items : list GroceryItem) :
  truthy q = false →
  InMemory.post_item uuid now (JObj (<["quantity" := q]> props)) items
    = InMemory.post_item uuid now (JObj (delete "quantity" props)) items
  ∧ (∃ it,
       InMemory.post_item uuid now (JObj (<["quantity" := q]> props)) items
         = ({| status := 201; payload := PItem it |}, items ++ [it])
       ∧ quantity it = JNum 1)
  ∧ (∀ stored,
       BigQueryBacked.post_item uuid now stored
         (JObj (<["quantity" := q]> props)) items
       = BigQueryBacked.post_item uuid now stored
           (JObj (delete "quantity" props)) items)
  ∧ (∃ it,
       BigQueryBacked.post_item uuid now true
         (JObj (<["quantity" := q]> props)) items
         = ({| status := 201; payload := PItem it |}, items ++ [it])
       ∧ quantity it = JNum 1).
Proof.
  intros Hfalsy.
  assert (InMemory.newItem uuid now (JObj (<["quantity" := q]> props))
          = InMemory.newItem uuid now (JObj (delete "quantity" props)))
    as Hmem.
  { unfold InMemory.newItem, js_or.
    rewrite prop_insert_same, prop_delete_same, Hfalsy.
    rewrite !prop_insert_other, !prop_delete_other by done. done. }
  assert (BigQueryBacked.newItem uuid now (JObj (<["quantity" := q]> props))
          = BigQueryBacked.newItem uuid now (JObj (delete "quantity" props)))
    as Hbq.
  { unfold BigQueryBacked.newItem, js_or.
    rewrite prop_insert_same, prop_delete_same, Hfalsy.
    rewrite !prop_insert_other, !prop_delete_other by done. done. }
  unfold InMemory.post_item, BigQueryBacked.post_item.
  rewrite Hmem, Hbq. repeat split.
  - eexists. split; [reflexivity|].
    unfold InMemory.newItem, js_or. by rewrite prop_delete_same.
  - eexists. split; [reflexivity|].
    unfold BigQueryBacked.newItem, js_or. by rewrite prop_delete_same.
Qed.

Lemma post_falsy_quantity_is_one_witness :
  InMemory.post_item "id-1" "2024-05-01T10:00:00.000Z"
    (JObj (<["quantity" := JNum 0]> {[ "name" := JStr "milk" ]})) [bread]
    = InMemory.post_item "id-1" "2024-05-01T10:00:00.000Z"
        (JObj (delete "quantity" {[ "name" := JStr "milk" ]})) [bread]
  ∧ (∃ it,
       InMemory.post_item "id-1" "2024-05-01T10:00:00.000Z"
         (JObj (<["quantity" := JNum 0]> {[ "name" := JStr "milk" ]}))
         [bread]
         = ({| status := 201; payload := PItem it |}, [bread] ++ [it])
       ∧ quantity it = JNum 1)
  ∧ (∀ stored,
       BigQueryBacked.post_item "id-1" "2024-05-01T10:00:00.000Z" stored
         (JObj (<["quantity" := JNum 0]> {[ "name" := JStr "milk" ]}))
         [bread]
       = BigQueryBacked.post_item "id-1" "2024-05-01T10:00:00.000Z" stored
           (JObj (delete "quantity" {[ "name" := JStr "milk" ]})) [bread])
  ∧ (∃ it,
       BigQueryBacked.post_item "id-1" "2024-05-01T10:00:00.000Z" true
         (JObj (<["quantity" := JNum 0]> {[ "name" := JStr "milk" ]}))
         [bread]
         = ({| status := 201; payload := PItem it |}, [bread] ++ [it])
       ∧ quantity it = JNum 1).
Proof.
  apply (post_falsy_quantity_is_one "id-1" "2024-05-01T10:00:00.000Z"
           {[ "name" := JStr "milk" ]} (JNum 0) [bread]).
  reflexivity.
Defined.

(** ** The create, patch, delete round trip *)

Lemma apply_patch_bought_true (it : GroceryItem) :
  apply_patch bought_true it = set_bought (JBool true) it.
Proof. reflexivity. Qed.

Lemma delete_item_first (pre post : list GroceryItem) (it : GroceryItem) :
  id it ∉ id <$> pre →
  InMemory.delete_item (id it) (pre ++ it :: post)
  = ({| status := 204; payload := PEmpty |}, pre ++ post).
Proof.
  intros Hpre. unfold InMemory.delete_item.
  rewrite (findIndex_first (id it) pre post it Hpre eq_refl).
  by rewrite delete_middle.
Qed.

(** C6. From any collection, with a generated identifier that no stored
    item carries: create, list, patch the created item with
    [{ bought: true }], list, delete the created item, list.  The six
    responses are 201 with the created item, 200 with the old items followed
    by it, 200 with the item now bought, 200 with the old items followed by
    the bought item, 204, and 200 with exactly the initial collection, which
    is also the final state of the server. *)
Theorem create_patch_delete_round_trip
    (items : list GroceryItem) (uuid now : string) (body : JsVal) :
  uuid ∉ id <$> items →
  serve [PostItem uuid now body; GetItems; PutItem uuid bought_true;
         GetItems; DeleteItem uuid; GetItems] items
  = ([ {| status := 201; payload := PItem (InMemory.newItem uuid now body) |};
       {| status := 200;
          payload := PItems (items ++ [InMemory.newItem uuid now body]) |};
       {| status := 200;
          payload := PItem (set_bought (JBool true)
                              (InMemory.newItem uuid now body)) |};
       {| status := 200;
          payload := PItems (items ++ [set_bought (JBool true)
                                         (InMemory.newItem uuid now body)]) |};
       {| status := 204; payload := PEmpty |};
       {| status := 200; payload := PItems items |} ],
     items).
Proof.
  intros Hfresh.
  pose proof (put_item_first items [] (InMemory.newItem uuid now body)
                bought_true Hfresh) as Hput.
  pose proof (delete_item_first items []
                (set_bought (JBool true) (InMemory.newItem uuid now body))
                Hfresh) as Hdel.
  rewrite apply_patch_bought_true in Hput.
  rewrite app_nil_r in Hdel. simpl in Hput, Hdel.
  unfold serve, handle, InMemory.post_item, InMemory.get_items.
  by rewrite Hput, Hdel.
Qed.

Lemma create_patch_delete_round_trip_witness :
  (serve [PostItem "id-eggs" "2024-05-01T11:00:00.000Z"
            (JObj {[ "name" := JStr "eggs" ]});
          GetItems; PutItem "id-eggs" bought_true; GetItems;
          DeleteItem "id-eggs"; GetItems] [milk; bread]).2
  = [milk; bread].
Proof.
  rewrite (create_patch_delete_round_trip [milk; bread] "id-eggs"
             "2024-05-01T11:00:00.000Z" (JObj {[ "name" := JStr "eggs" ]})).
  - reflexivity.
  - apply (bool_decide_unpack _). vm_compute. exact I.
Defined.

(** ** [boughtAt] *)

(** C1, the claim as stated fails on the in-memory server: an item is
    created and then patched with [{ bought: true }]; the answer is 200, the
    stored item is bought and has no [boughtAt] at all, in particular no
    timestamp. *)
Lemma in_memory_put_bought_leaves_boughtAt_absent :
  ∃ it,
    serve [PostItem "id-1" "2024-05-01T10:00:00.000Z"
             (JObj {[ "name" := JStr "milk" ]});
           PutItem "id-1" bought_true] []
    = ([ {| status := 201;
            payload := PItem (InMemory.newItem "id-1"
                                "2024-05-01T10:00:00.000Z"
                                (JObj {[ "name" := JStr "milk" ]})) |};
         {| status := 200; payload := PItem it |} ],
       [it])
    ∧ bought it = JBool true
    ∧ boughtAt it = JUndefined
    ∧ ¬ (∃ timestamp, boughtAt it = JStr timestamp).
Proof.
  eexists. split; [reflexivity|].
  split; [reflexivity|]. split; [reflexivity|].
  intros [timestamp Habs]. discriminate Habs.
Qed.

Lemma stamp_boughtAt_true (cleared : JsVal) (now : string) (body : JsVal)
    (it : GroceryItem) :
  prop "bought" body = JBool true →
  stamp_boughtAt cleared now body it = set_boughtAt (JStr now) it.
Proof. intros Hb. unfold stamp_boughtAt. by rewrite Hb. Qed.

Lemma stamp_boughtAt_false (cleared : JsVal) (now : string) (body : JsVal)
    (it : GroceryItem) :
  prop "bought" body = JBool false →
  stamp_boughtAt cleared now body it = set_boughtAt cleared it.
Proof. intros Hb. unfold stamp_boughtAt. by rewrite Hb. Qed.

Lemma apply_patch_bought (body : JsVal) (it : GroceryItem) (b : bool) :
  prop "bought" body = JBool b → bought (apply_patch body it) = JBool b.
Proof.
  intros Hb. destruct (apply_patch_fields body it) as (-> & _).
  by rewrite Hb.
Qed.

Lemma file_put_item_first (now : string) (written : bool)
    (pre post disk : list GroceryItem) (it : GroceryItem) (body : JsVal) :
  id it ∉ id <$> pre →
  FileBacked.put_item now written (id it) body
    {| FileBacked.groceryItems := pre ++ it :: post;
       FileBacked.dataFile := disk |}
  = ({| status := 200; payload := PItem (FileBacked.patch now body it) |},
     {| FileBacked.groceryItems :=
          pre ++ FileBacked.patch now body it :: post;
        FileBacked.dataFile :=
          if written then pre ++ FileBacked.patch now body it :: post
          else disk |}).
Proof.
  intros Hpre. unfold FileBacked.put_item, FileBacked.saveItems. simpl.
  rewrite (findIndex_first (id it) pre post it Hpre eq_refl).
  by rewrite alter_middle, item_response_middle.
Qed.

Lemma bigquery_put_item_first (now : string) (stored : bool)
    (pre post : list GroceryItem) (it : GroceryItem) (body : JsVal) :
  id it ∉ id <$> pre →
  BigQueryBacked.put_item now stored (id it) body (pre ++ it :: post)
  = (if stored
     then {| status := 200;
             payload := PItem (BigQueryBacked.patch now body it) |}
     else server_error "Failed to update item",
     pre ++ BigQueryBacked.patch now body it :: post).
Proof.
  intros Hpre. unfold BigQueryBacked.put_item.
  rewrite (findIndex_first (id it) pre post it Hpre eq_refl).
  rewrite alter_middle, item_response_middle. by destruct stored.
Qed.

Lemma patch_keeps_id (cleared : JsVal) (now : string) (body : JsVal)
    (it : GroceryItem) :
  id (stamp_boughtAt cleared now body (apply_patch body it)) = id it.
Proof.
  rewrite stamp_boughtAt_id. by destruct (apply_patch_frame body it) as [-> _].
Qed.

(** C1, amended.  Let [it] be the stored item a [PUT] with its identifier
    reaches, [body1] a body with [bought: true] and [body2] one with
    [bought: false], handled at the clock readings [now1] and [now2].
    - File-backed server: after the first request the item is bought and its
      [boughtAt] is the timestamp [now1]; after the second it is not bought
      and has no [boughtAt] (the property is deleted).  Both answers are 200
      with the item.
    - BigQuery-backed server: the cached item has [boughtAt = now1] after the
      first request and [boughtAt = null] after the second, whether or not
      the warehouse update succeeds; the answer is 200 with the item when it
      does.
    - In-memory server: the first request makes the item bought and leaves
      its [boughtAt] as it was; it never stores a timestamp. *)
Theorem put_bought_sets_and_clears_boughtAt
    (pre post : list GroceryItem) (it : GroceryItem) (now1 now2 : string)
    (body1 body2 : JsVal) :
  id it ∉ id <$> pre →
  prop "bought" body1 = JBool true →
  prop "bought" body2 = JBool false →
  (∀ written1 written2 disk, ∃ it1 it2 st1 st2,
     FileBacked.put_item now1 written1 (id it) body1
       {| FileBacked.groceryItems := pre ++ it :: post;
          FileBacked.dataFile := disk |}
       = ({| status := 200; payload := PItem it1 |}, st1)
     ∧ FileBacked.groceryItems st1 = pre ++ it1 :: post
     ∧ bought it1 = JBool true ∧ boughtAt it1 = JStr now1
     ∧ FileBacked.put_item now2 written2 (id it) body2 st1
       = ({| status := 200; payload := PItem it2 |}, st2)
     ∧ FileBacked.groceryItems st2 = pre ++ it2 :: post
     ∧ bought it2 = JBool false ∧ boughtAt it2 = JUndefined)
  ∧ (∀ stored1 stored2, ∃ it1 it2 resp1 resp2,
       BigQueryBacked.put_item now1 stored1 (id it) body1 (pre ++ it :: post)
         = (resp1, pre ++ it1 :: post)
       ∧ (stored1 = true → resp1 = {| status := 200; payload := PItem it1 |})
       ∧ bought it1 = JBool true ∧ boughtAt it1 = JStr now1
       ∧ BigQueryBacked.put_item now2 stored2 (id it) body2
           (pre ++ it1 :: post)
         = (resp2, pre ++ it2 :: post)
       ∧ (stored2 = true → resp2 = {| status := 200; payload := PItem it2 |})
       ∧ bought it2 = JBool false ∧ boughtAt it2 = JNull)
  ∧ (∃ it1,
       InMemory.put_item (id it) body1 (pre ++ it :: post)
         = ({| status := 200; payload := PItem it1 |}, pre ++ it1 :: post)
       ∧ bought it1 = JBool true ∧ boughtAt it1 = boughtAt it).
Proof.
  intros Hpre Htrue Hfalse. split; [|split].
  - intros written1 written2 disk.
    pose proof (patch_keeps_id JUndefined now1 body1 it) as Hid.
    fold (FileBacked.patch now1 body1 it) in Hid.
    eexists (FileBacked.patch now1 body1 it),
      (FileBacked.patch now2 body2 (FileBacked.patch now1 body1 it)), _, _.
    split; [by apply file_put_item_first|].
    split; [reflexivity|].
    split; [unfold FileBacked.patch; rewrite stamp_boughtAt_true by done;
            simpl; by apply apply_patch_bought|].
    split; [unfold FileBacked.patch; by rewrite stamp_boughtAt_true|].
    split.
    { rewrite <- Hid. apply file_put_item_first. by rewrite Hid. }
    split; [reflexivity|].
    split; [unfold FileBacked.patch at 1;
            rewrite stamp_boughtAt_false by done;
            simpl; by apply apply_patch_bought|].
    unfold FileBacked.patch at 1. by rewrite stamp_boughtAt_false.
  - intros stored1 stored2.
    pose proof (patch_keeps_id JNull now1 body1 it) as Hid.
    fold (BigQueryBacked.patch now1 body1 it) in Hid.
    eexists (BigQueryBacked.patch now1 body1 it),
      (BigQueryBacked.patch now2 body2 (BigQueryBacked.patch now1 body1 it)),
      _, _.
    split; [by apply bigquery_put_item_first|].
    split; [by intros ->|].
    split; [unfold BigQueryBacked.patch; rewrite stamp_boughtAt_true by done;
            simpl; by apply apply_patch_bought|].
    split; [unfold BigQueryBacked.patch; by rewrite stamp_boughtAt_true|].
    split.
    { rewrite <- Hid. apply bigquery_put_item_first. by rewrite Hid. }
    split; [by intros ->|].
    split; [unfold BigQueryBacked.patch at 1;
            rewrite stamp_boughtAt_false by done;
            simpl; by apply apply_patch_bought|].
    unfold BigQueryBacked.patch at 1. by rewrite stamp_boughtAt_false.
  - exists (apply_patch body1 it).
    split; [by apply put_item_first|].
    split; [by apply apply_patch_bought|].
    by destruct (apply_patch_frame body1 it) as (_ & _ & _ & _ & ->).
Qed.

Lemma put_bought_sets_and_clears_boughtAt_witness :
  ∃ it1,
    InMemory.put_item (id bread) bought_true ([milk] ++ bread :: [soap])
      = ({| status := 200; payload := PItem it1 |}, [milk] ++ it1 :: [soap])
    ∧ bought it1 = JBool true ∧ boughtAt it1 = boughtAt bread.
Proof.
  apply (put_bought_sets_and_clears_boughtAt [milk] [soap] bread
           "2024-05-02T09:00:00.000Z" "2024-05-02T09:05:00.000Z"
           bought_true bought_false).
  - apply (bool_decide_unpack _). vm_compute. exact I.
  - reflexivity.
  - reflexivity.
Defined.

(** ** Clearing the bought items *)

(** C4, the claim as stated fails twice.  On the in-memory server an item
    patched with [{ bought: "yes" }] has a [bought] field that is not [true],
    and the clear request removes it.  On the BigQuery-backed server the
    clear request answers 500 and removes nothing when the warehouse delete
    throws. *)
Lemma clear_bought_not_exactly_true_nor_always_204 :
  (∃ it,
     serve [PostItem "id-1" "2024-05-01T10:00:00.000Z"
              (JObj {[ "name" := JStr "milk" ]});
            PutItem "id-1" (JObj {[ "bought" := JStr "yes" ]})] []
     = ([ {| status := 201;
             payload := PItem (InMemory.newItem "id-1"
                                 "2024-05-01T10:00:00.000Z"
                                 (JObj {[ "name" := JStr "milk" ]})) |};
          {| status := 200; payload := PItem it |} ],
        [it])
     ∧ bought it = JStr "yes"
     ∧ bought it ≠ JBool true
     ∧ InMemory.clear_bought [it]
       = ({| status := 204; payload := PEmpty |}, []))
  ∧ bought bread = JBool true
  ∧ BigQueryBacked.clear_bought false [milk; bread]
    = ({| status := 500; payload := PError "Failed to clear bought items" |},
       [milk; bread]).
Proof.
  split; [|split; reflexivity].
  eexists. split; [reflexivity|].
  split; [reflexivity|]. split; [discriminate | reflexivity].
Qed.

Lemma filter_all (A : Type) (P : A → Prop) `{!∀ a, Decision (P a)}
    (l : list A) :
  Forall P l → filter P l = l.
Proof.
  induction 1 as [|a l Ha Hl IH]; [done|].
  by rewrite filter_cons_True, IH.
Qed.

Lemma Forall_filter_holds (A : Type) (P : A → Prop) `{!∀ a, Decision (P a)}
    (l : list A) :
  Forall P (filter P l).
Proof.
  apply Forall_forall. intros a Ha.
  by apply list_elem_of_filter in Ha as [? _].
Qed.

(** C4, amended.  [DELETE /api/items/bought/clear] splits the collection
    [items] into the items it keeps, [kept], and those it removes,
    [removed]: together they are the items of the collection, the kept ones
    stay in their order, every kept item has a falsy [bought] ([false], and
    also [0], [''], [null] or a missing field) and every removed item a
    truthy one ([true], and also any other truthy value); when no item has a
    truthy [bought] the collection is unchanged.  The in-memory and the
    file-backed server always answer 204 this way (the file-backed one then
    rewrites its data file if the write succeeds); the BigQuery-backed
    server does so when the warehouse delete succeeds, and answers 500 with
    an error body and keeps its whole cache when it throws. *)
Theorem clear_bought_removes_the_truthy (items : list GroceryItem) :
  ∃ kept removed,
    InMemory.clear_bought items
      = ({| status := 204; payload := PEmpty |}, kept)
    ∧ (∀ written disk,
         FileBacked.clear_bought written
           {| FileBacked.groceryItems := items; FileBacked.dataFile := disk |}
         = ({| status := 204; payload := PEmpty |},
            {| FileBacked.groceryItems := kept;
               FileBacked.dataFile := if written then kept else disk |}))
    ∧ BigQueryBacked.clear_bought true items
      = ({| status := 204; payload := PEmpty |}, kept)
    ∧ BigQueryBacked.clear_bought false items
      = ({| status := 500;
            payload := PError "Failed to clear bought items" |}, items)
    ∧ kept ++ removed ≡ₚ items
    ∧ kept `sublist_of` items
    ∧ Forall (λ it, truthy (bought it) = false) kept
    ∧ Forall (λ it, truthy (bought it) = true) removed
    ∧ (Forall (λ it, truthy (bought it) = false) items → kept = items).
Proof.
  exists (filter (λ it, ¬ truthy (bought it)) items),
    (filter (λ it, ¬ ¬ truthy (bought it)) items).
  split; [reflexivity|]. split; [reflexivity|].
  split; [reflexivity|]. split; [reflexivity|].
  split; [apply filter_app_complement|].
  split; [apply sublist_filter|].
  split.
  { eapply Forall_impl; [apply Forall_filter_holds|].
    intros it Hit. by apply Is_true_false. }
  split.
  { eapply Forall_impl; [apply Forall_filter_holds|].
    intros it Hit. simpl in Hit. destruct (truthy (bought it)); [done|].
    exfalso. apply Hit. intros []. }
  intros Hnone. apply filter_all.
  eapply Forall_impl; [exact Hnone|].
  intros it Hit. by apply Is_true_false.
Qed.

Lemma clear_bought_removes_the_truthy_witness :
  InMemory.clear_bought [milk; soap]
  = ({| status := 204; payload := PEmpty |}, [milk; soap]).
Proof.
  destruct (clear_bought_removes_the_truthy [milk; soap])
    as (kept & removed & Hmem & _ & _ & _ & _ & _ & _ & _ & Hnone).
  rewrite Hmem. f_equal. apply Hnone.
  repeat constructor.
Defined.

(** ** Quantities *)

(** C3, the claim as stated fails: the handlers store whatever quantity a
    request supplies.  A create with [quantity: -3] stores [-3]; a patch with
    [quantity: 0] stores [0]; a patch with [quantity: 2.5] stores [2.5]. *)
Lemma stored_quantity_need_not_be_a_positive_integer :
  (∃ it,
     (serve [PostItem "id-1" "2024-05-01T10:00:00.000Z"
               (JObj {[ "name" := JStr "milk"; "quantity" := JNum (-3) ]})]
        []).2 = [it]
     ∧ quantity it = JNum (-3)
     ∧ is_positive_integer (quantity it) = false)
  ∧ (∃ it,
       (serve [PutItem "id-milk" (JObj {[ "quantity" := JNum 0 ]})]
          [milk]).2 = [it]
       ∧ quantity it = JNum 0
       ∧ is_positive_integer (quantity it) = false)
  ∧ (∃ it,
       (serve [PutItem "id-milk" (JObj {[ "quantity" := JNum 2.5 ]})]
          [milk]).2 = [it]
       ∧ quantity it = JNum 2.5
       ∧ is_positive_integer (quantity it) = false).
Proof.
  repeat split; eexists; (split; [reflexivity|]); split; reflexivity.
Qed.

Lemma positive_integer_is_truthy (v : JsVal) :
  is_positive_integer v = true → truthy v = true.
Proof.
  destruct v as [| |b|q|s|l|m]; simpl; try discriminate.
  intros Hpos. apply andb_true_iff in Hpos as [Hle _].
  apply Qle_bool_iff in Hle.
  destruct (Qeq_bool q 0) eqn:Hz; [|done].
  apply Qeq_bool_iff in Hz. rewrite Hz in Hle. by apply Qle_not_lt in Hle.
Qed.

Lemma js_or_quantity_valid (v : JsVal) :
  negb (is_defined v) || is_positive_integer v = true →
  is_positive_integer (js_or v (JNum 1)) = true.
Proof.
  intros Hvalid. unfold js_or.
  destruct (is_positive_integer v) eqn:Hpos.
  - by rewrite positive_integer_is_truthy.
  - rewrite orb_false_r in Hvalid. by destruct v.
Qed.

Lemma handle_keeps_positive_quantities (r : Request)
    (items : list GroceryItem) :
  quantity_valid r = true →
  Forall (λ it, is_positive_integer (quantity it) = true) items →
  Forall (λ it, is_positive_integer (quantity it) = true) (handle r items).2.
Proof.
  intros Hvalid Hitems. destruct r as [|uuid now body|wanted body|wanted|];
    simpl in *.
  - done.
  - apply Forall_app. split; [done|]. constructor; [|done].
    by apply js_or_quantity_valid.
  - unfold InMemory.put_item.
    destruct (findIndex (has_id wanted) items); [|done]. simpl.
    apply Forall_alter; [done|]. intros it _ Hit.
    destruct (apply_patch_fields body it) as (_ & -> & _).
    destruct (prop "quantity" body); simpl in *; done.
  - unfold InMemory.delete_item.
    destruct (findIndex (has_id wanted) items); [|done]. simpl.
    by apply Forall_delete.
  - apply Forall_forall. intros it Hit.
    apply list_elem_of_filter in Hit as [_ Hit].
    by eapply Forall_forall in Hitems.
Qed.

(** C3, amended.  The server does not validate quantities; what holds is
    this.  If every item of the collection has a positive-integer quantity
    and every create and patch request of a sequence (lists, deletes and
    clears in between at will) either omits [quantity] or supplies a positive
    integer, then after the whole sequence every item of the collection has
    a positive-integer quantity; and an item created from a body without
    [quantity] has quantity [1]. *)
Theorem quantities_stay_positive_when_requests_are
    (rs : list Request) (items : list GroceryItem)
    (uuid now : string) (body : JsVal) :
  forallb quantity_valid rs = true →
  Forall (λ it, is_positive_integer (quantity it) = true) items →
  prop "quantity" body = JUndefined →
  Forall (λ it, is_positive_integer (quantity it) = true) (serve rs items).2
  ∧ ∃ it,
      InMemory.post_item uuid now body items
        = ({| status := 201; payload := PItem it |}, items ++ [it])
      ∧ quantity it = JNum 1.
Proof.
  intros Hrs Hitems Hbody. split.
  - revert items Hitems. induction rs as [|r rs IH]; intros items Hitems;
      simpl; [done|].
    simpl in Hrs. apply andb_true_iff in Hrs as [Hr Hrs].
    pose proof (handle_keeps_positive_quantities r items Hr Hitems) as Hstep.
    destruct (handle r items) as [resp items'].
    specialize (IH Hrs items' Hstep).
    by destruct (serve rs items') as [resps final].
  - eexists. split; [reflexivity|]. simpl. unfold js_or. by rewrite Hbody.
Qed.

Lemma quantities_stay_positive_when_requests_are_witness :
  Forall (λ it, is_positive_integer (quantity it) = true)
    (serve [PostItem "id-eggs" "2024-05-01T11:00:00.000Z"
              (JObj {[ "name" := JStr "eggs"; "quantity" := JNum 12 ]});
            PutItem "id-milk" (JObj {[ "quantity" := JNum 3 ]});
            ClearBought; DeleteItem "id-soap"; GetItems]
       [milk; bread; soap]).2
  ∧ ∃ it,
      InMemory.post_item "id-rice" "2024-05-01T12:00:00.000Z"
        (JObj {[ "name" := JStr "rice" ]}) [milk; bread; soap]
        = ({| status := 201; payload := PItem it |},
           [milk; bread; soap] ++ [it])
      ∧ quantity it = JNum 1.
Proof.
  apply (quantities_stay_positive_when_requests_are
           [PostItem "id-eggs" "2024-05-01T11:00:00.000Z"
              (JObj {[ "name" := JStr "eggs"; "quantity" := JNum 12 ]});
            PutItem "id-milk" (JObj {[ "quantity" := JNum 3 ]});
            ClearBought; DeleteItem "id-soap"; GetItems]
           [milk; bread; soap] "id-rice" "2024-05-01T12:00:00.000Z"
           (JObj {[ "name" := JStr "rice" ]})).
  - vm_compute. reflexivity.
  - repeat constructor.
  - reflexivity.
Defined.

(** ** The particle loop *)

Section ParticleLoop.

Import ConfettiCannon.

Context {N : Type} `{Number N}.

(** The backward loop with [splice] visits every particle of the prefix it
    still has to process exactly once and never disturbs that prefix. *)
Lemma animate_loop_prefix (height : N) (pre post : list (Particle N)) :
  animate_loop height (length pre) (pre ++ post)
  = filter (λ p, ¬ expired height p) (update_physics <$> pre) ++ post.
Proof.
  revert post. induction pre as [|p pre IH] using rev_ind; intros post.
  - reflexivity.
  - rewrite length_app, Nat.add_1_r. simpl.
    rewrite <- app_assoc. simpl.
    rewrite list_lookup_middle by done.
    rewrite insert_app_r_alt, Nat.sub_diag by lia. simpl.
    rewrite fmap_app, filter_app. simpl.
    destruct (expired height (update_physics p)) eqn:Hdead.
    + rewrite delete_middle, IH.
      rewrite filter_cons_False
        by (rewrite Hdead; intros Hnot; apply Hnot; exact I).
      by rewrite filter_nil, app_nil_r.
    + rewrite IH, <- app_assoc.
      rewrite filter_cons_True by (rewrite Hdead; intros []).
      by rewrite filter_nil.
Qed.

Lemma animate_loop_all (height : N) (ps : list (Particle N)) :
  animate_loop height (length ps) ps
  = filter (λ p, ¬ expired height p) (update_physics <$> ps).
Proof.
  rewrite <- (app_nil_r ps) at 2.
  by rewrite animate_loop_prefix, app_nil_r.
Qed.

(** C9, amended.  One animation frame replaces the array of particles by the array of
    the updated particles that are not removed, in the same order.  Each
    particle is updated exactly once, by: [x += vx], [y += vy] (position +=
    velocity, with the old velocity), then [vy += gravity], then [vx *= drag]
    and [vy *= drag], then [rotation += rotationSpeed], then
    [life -= decay]; every other field is kept.  An updated particle is
    removed exactly when its new [life <= 0] or its new [y] is more than 50
    pixels below the bottom edge of the canvas, [y > canvas.height + 50]. *)
Theorem animate_updates_then_removes (height : N) (ps : list (Particle N)) :
  animate_loop height (length ps) ps
  = filter
      (λ p, ¬ (leb (life p) (lit 0) || ltb (add height (lit 50)) (y p)))
      ((λ p, {| x := add (x p) (vx p);
                y := add (y p) (vy p);
                vx := mul (vx p) (drag p);
                vy := mul (add (vy p) (gravity p)) (drag p);
                color := color p;
                size := size p;
                rotation := add (rotation p) (rotationSpeed p);
                rotationSpeed := rotationSpeed p;
                gravity := gravity p;
                drag := drag p;
                life := sub (life p) (decay p);
                decay := decay p;
                shape := shape p |}) <$> ps).
Proof. apply animate_loop_all. Qed.

(** [animate] asks for another frame exactly when particles are left. *)
Lemma animate_schedules_while_particles_left (height : N) (handle : positive)
    (c : Cannon N) :
  particles (animate height handle c)
    = animate_loop height (length (particles c)) (particles c)
  ∧ (animationId (animate height handle c) = None
     ↔ particles (animate height handle c) = []).
Proof.
  unfold animate. simpl. split; [reflexivity|].
  destruct (animate_loop height (length (particles c)) (particles c));
    simpl; split; done.
Qed.

End ParticleLoop.

(** C9, the claim as stated fails on the removal test.  On a canvas 600
    pixels high a fresh particle at [y = 617.5] moving up by 12.5 is at
    [y = 605] after the frame: below the visible area, with [life = 0.99],
    and still in the array.  This is so in exact and in binary64
    arithmetic. *)
Lemma particle_just_below_the_canvas_is_kept :
  (∃ p : ConfettiCannon.Particle Q,
     ConfettiCannon.animate_loop 600%Q 1 [ConfettiCannon.low_particle] = [p]
     ∧ (ConfettiCannon.y p == 605)%Q
     ∧ (600 < ConfettiCannon.y p)%Q
     ∧ (0 < ConfettiCannon.life p)%Q)
  ∧ (∃ p : ConfettiCannon.Particle float,
       ConfettiCannon.animate_loop 600%float 1 [ConfettiCannon.low_particle]
         = [p]
       ∧ ConfettiCannon.y p = 605%float
       ∧ PrimFloat.ltb 600 (ConfettiCannon.y p) = true
       ∧ PrimFloat.ltb 0 (ConfettiCannon.life p) = true).
Proof.
  split.
  - eexists. split; [vm_compute; reflexivity|]. simpl.
    repeat split; reflexivity.
  - eexists. split; [vm_compute; reflexivity|]. simpl.
    repeat split; reflexivity.
Qed.

(** ** Successive frames *)

Section Frames.

Import ConfettiCannon.

Context {N : Type} `{Number N}.

Lemma frames_unfold (height : N) (n : nat) (ps : list (Particle N)) :
  frames height (S n) ps
  = frames height n (animate_loop height (length ps) ps).
Proof. reflexivity. Qed.

Lemma frames_succ (height : N) (n : nat) (ps : list (Particle N)) :
  frames height (S n) ps
  = animate_loop height (length (frames height n ps)) (frames height n ps).
Proof.
  revert ps. induction n as [|n IH]; intros ps; [done|].
  change (frames height (S (S n)) ps)
    with (frames height (S n) (animate_loop height (length ps) ps)).
  by rewrite IH.
Qed.

(** A frame never adds a particle. *)
Lemma frames_length_succ (height : N) (n : nat) (ps : list (Particle N)) :
  length (frames height (S n) ps) ≤ length (frames height n ps).
Proof.
  rewrite frames_succ, animate_loop_all.
  etrans; [apply length_filter|]. by rewrite length_fmap.
Qed.

Lemma update_physics_life (p : Particle N) :
  life (update_physics p) = sub (life p) (decay p)
  ∧ decay (update_physics p) = decay p.
Proof. done. Qed.

Lemma iter_update_physics_life (j : nat) (p : Particle N) :
  life (Nat.iter j update_physics p) = life_after j p
  ∧ decay (Nat.iter j update_physics p) = decay p.
Proof.
  unfold life_after. induction j as [|j [IHl IHd]]; [done|].
  rewrite !Nat.iter_succ.
  destruct (update_physics_life (Nat.iter j update_physics p)) as [-> ->].
  by rewrite IHl, IHd.
Qed.

(** A particle that is still there after [n] frames was updated [n] times
    and passed the removal test after each of them. *)
Lemma frames_survivor (height : N) (n : nat) (ps : list (Particle N))
    (q : Particle N) :
  q ∈ frames height n ps →
  ∃ p, p ∈ ps ∧ q = Nat.iter n update_physics p
       ∧ ∀ j, 1 ≤ j ≤ n →
              expired height (Nat.iter j update_physics p) = false.
Proof.
  revert q. induction n as [|n IH]; intros q Hq.
  - exists q. split; [exact Hq|]. split; [reflexivity|]. intros j Hj. lia.
  - rewrite frames_succ, animate_loop_all in Hq.
    apply list_elem_of_filter in Hq as [Halive Hq].
    apply list_elem_of_fmap in Hq as (q' & -> & Hq').
    destruct (IH q' Hq') as (p & Hp & -> & Hsurv).
    exists p. split; [exact Hp|].
    split; [symmetry; apply Nat.iter_succ|].
    intros j Hj. destruct (decide (j = S n)) as [->|Hne].
    + rewrite Nat.iter_succ. apply Is_true_false. exact Halive.
    + apply Hsurv. lia.
Qed.

(** If the life of every particle is used up within [n] frames, no particle
    is left after [n] frames. *)
Lemma frames_empty_when_lives_run_out (height : N) (n : nat)
    (ps : list (Particle N)) :
  (∀ p, p ∈ ps →
        ∃ j, 1 ≤ j ≤ n ∧ leb (life_after j p) (lit 0) = true) →
  frames height n ps = [].
Proof.
  intros Hlives. apply elem_of_nil_inv. intros q Hq.
  apply frames_survivor in Hq as (p & Hp & _ & Hsurv).
  destruct (Hlives p Hp) as (j & Hj & Hdead).
  specialize (Hsurv j Hj). unfold expired in Hsurv.
  destruct (iter_update_physics_life j p) as [Hlife _].
  rewrite Hlife, Hdead in Hsurv. done.
Qed.

End Frames.

Section ExactArithmetic.

Import ConfettiCannon.

Lemma life_after_exact (j : nat) (p : Particle Q) :
  (life_after j p == life p - inject_Z (Z.of_nat j) * decay p)%Q.
Proof.
  unfold life_after. induction j as [|j IH].
  - simpl. ring.
  - rewrite Nat.iter_succ, Nat2Z.inj_succ. unfold Z.succ.
    rewrite inject_Z_plus. simpl sub. rewrite IH. ring.
Qed.

Lemma life_runs_out_exact (p : Particle Q) (j : nat) :
  (0 < decay p)%Q → frames_needed p ≤ j →
  leb (life_after j p) (lit 0) = true.
Proof.
  intros Hdecay Hj. simpl. apply Qle_bool_iff.
  rewrite life_after_exact.
  assert (life p / decay p <= inject_Z (Z.of_nat j))%Q as Hbound.
  { eapply Qle_trans; [apply Qle_ceiling|].
    rewrite <- Zle_Qle. unfold frames_needed in Hj. lia. }
  apply (Qmult_le_compat_r _ _ (decay p)) in Hbound;
    [|by apply Qlt_le_weak].
  assert (life p / decay p * decay p == life p)%Q as Hcancel.
  { field. intros Hzero. rewrite Hzero in Hdecay.
    by apply Qlt_irrefl in Hdecay. }
  rewrite Hcancel in Hbound.
  apply (Qplus_le_l _ _ (inject_Z (Z.of_nat j) * decay p)).
  ring_simplify. exact Hbound.
Qed.

End ExactArithmetic.

Section Binary64.

Import ConfettiCannon.

(** Without a [decay] option a created particle has life [1] and decay
    [0.01], whatever the other options and the random draws. *)
Lemma createParticle_default_decay (px py : float) (options : Options float)
    (r : Draws float) :
  opt_decay options = None →
  life (createParticle px py options r) = 1%float
  ∧ decay (createParticle px py options r) = 0.01%float.
Proof. intros Hnone. simpl. rewrite Hnone. split; vm_compute; reflexivity. Qed.

(** In binary64, subtracting 0.01 from 1 a hundred times gives a negative
    number (about -7.5e-16); after 99 subtractions the result is still
    positive.  So a particle with the default decay lives 100 frames. *)
Lemma default_life_runs_out_binary64 :
  PrimFloat.leb (Nat.iter 100 (λ l, PrimFloat.sub l 0.01%float) 1%float) 0
  = true
  ∧ PrimFloat.leb (Nat.iter 99 (λ l, PrimFloat.sub l 0.01%float) 1%float) 0
    = false.
Proof. split; vm_compute; reflexivity. Qed.

Lemma life_runs_out_binary64 (k : nat) (p : Particle float) :
  k ≤ 99 → default_decay_aged k p →
  leb (life_after (100 - k) p) (lit 0) = true.
Proof.
  intros Hk [Hdecay Hlife]. unfold life_after. rewrite Hlife, Hdecay.
  rewrite <- Nat.iter_add. replace (100 - k + k) with 100 by lia.
  exact (proj1 default_life_runs_out_binary64).
Qed.

Lemma createParticle_fresh (px py : float) (options : Options float)
    (r : Draws float) :
  opt_decay options = None →
  default_decay_aged 0 (createParticle px py options r).
Proof.
  intros Hnone. destruct (createParticle_default_decay px py options r Hnone)
    as [Hlife Hdecay].
  split; [exact Hdecay | exact Hlife].
Qed.

Lemma frames_nil (height : float) (n : nat) :
  frames height n ([] : list (Particle float)) = [].
Proof. induction n as [|n IH]; [done|]. simpl. exact IH. Qed.

Lemma frames_add (height : float) (a b : nat) (ps : list (Particle float)) :
  frames height (a + b) ps = frames height b (frames height a ps).
Proof.
  revert ps. induction a as [|a IH]; intros ps; [done|].
  simpl. apply IH.
Qed.

(** After 1100 frames the particle with the tiny decay is at rest, with its
    life still [1]: a frame maps it to itself. *)
Lemma tiny_decay_particle_comes_to_rest :
  ∃ q, frames 600%float 1100 [tiny_decay_particle] = [q]
       ∧ animate_loop 600%float 1 [q] = [q]
       ∧ life q = 1%float.
Proof.
  eexists. split; [vm_compute; reflexivity|].
  split; vm_compute; reflexivity.
Qed.

Lemma tiny_decay_particle_never_expires (n : nat) :
  length (frames 600%float n [tiny_decay_particle]) = 1.
Proof.
  destruct tiny_decay_particle_comes_to_rest as (q & Hrun & Hrest & _).
  assert (∀ m, frames 600%float m [q] = [q]) as Hfix.
  { induction m as [|m IH]; [reflexivity|].
    rewrite frames_unfold. cbn [length]. rewrite Hrest. exact IH. }
  assert (∀ k, length (frames 600%float k [tiny_decay_particle]) ≤ 1)
    as Hle1.
  { induction k as [|k IH]; [reflexivity|].
    etrans; [apply frames_length_succ | exact IH]. }
  destruct (decide (n ≤ 1100)) as [Hle|Hgt].
  - pose proof (frames_add 600%float n (1100 - n) [tiny_decay_particle])
      as Hsplit.
    replace (n + (1100 - n)) with 1100 in Hsplit by lia.
    rewrite Hrun in Hsplit. clear Hrun.
    specialize (Hle1 n).
    destruct (frames 600%float n [tiny_decay_particle]) as [|a rest].
    + rewrite frames_nil in Hsplit. discriminate Hsplit.
    + destruct rest as [|b rest]; [reflexivity|].
      cbn [length] in Hle1. lia.
  - pose proof (frames_add 600%float 1100 (n - 1100) [tiny_decay_particle])
      as Hsplit.
    replace (1100 + (n - 1100)) with n in Hsplit by lia.
    rewrite Hsplit, Hrun, Hfix. reflexivity.
Qed.

End Binary64.

(** C2, the claim as stated fails.  The count does not decrease on every
    frame: one fresh particle with the default decay 0.01 is still there
    after its first frame, in exact and in binary64 arithmetic.  And in
    binary64, which is what the code computes in, a positive finite decay
    does not force the count to zero: with decay [2 ** -60] the life stays
    [1], and the particle of [tiny_decay_options] is there after every
    number of frames. *)
Lemma particle_count_can_stay_the_same :
  ((0 < ConfettiCannon.decay
          (ConfettiCannon.middle_particle : ConfettiCannon.Particle Q))%Q
   ∧ length (ConfettiCannon.frames 600%Q 1 [ConfettiCannon.middle_particle])
     = 1
   ∧ ¬ (length (ConfettiCannon.frames 600%Q 1
                  [ConfettiCannon.middle_particle])
        < length (ConfettiCannon.frames 600%Q 0
                    [ConfettiCannon.middle_particle])))
  ∧ (PrimFloat.ltb 0
       (ConfettiCannon.decay
          (ConfettiCannon.middle_particle : ConfettiCannon.Particle float))
     = true
     ∧ length (ConfettiCannon.frames 600%float 1
                 [ConfettiCannon.middle_particle])
       = 1)
  ∧ (PrimFloat.ltb 0 (ConfettiCannon.decay ConfettiCannon.tiny_decay_particle)
     = true
     ∧ PrimFloat.ltb (ConfettiCannon.decay ConfettiCannon.tiny_decay_particle)
         infinity
       = true
     ∧ ∀ n, ConfettiCannon.frames 600%float n
              [ConfettiCannon.tiny_decay_particle] ≠ []).
Proof.
  split; [|split].
  - split; [reflexivity|]. split; [vm_compute; reflexivity|].
    vm_compute. lia.
  - split; vm_compute; reflexivity.
  - split; [vm_compute; reflexivity|]. split; [vm_compute; reflexivity|].
    intros n Hnil.
    pose proof (tiny_decay_particle_never_expires n) as Hlen.
    by rewrite Hnil in Hlen.
Qed.

(** C2, amended.  With nothing fired in between, the particle count never
    grows from one frame to the next, and it reaches zero and stays there
    once the life of every particle is used up.  In the arithmetic of the
    code (binary64) as in any other: if for every particle at most [n]
    subtractions [life -= decay] bring its life to [<= 0], no particle is
    left after [n] frames, nor after any later frame.  This is so
    - in exact arithmetic for every set of particles whose decays are all
      positive, with [n] the largest [frames_needed], that is the largest
      [ceil(life / decay) + 1];
    - in binary64 for every set of particles that were created with the
      default decay 0.01 and have been through at most 99 frames, with
      [n = 100].
    The count may stay the same over a frame, and in binary64 a positive
    decay alone does not bring it to zero. *)
Theorem particle_count_never_grows_and_reaches_zero
    (N : Type) (HN : ConfettiCannon.Number N)
    (height : N) (ps : list (ConfettiCannon.Particle N)) (n : nat)
    (heightQ : Q) (psQ : list (ConfettiCannon.Particle Q))
    (height64 : float) (ps64 : list (ConfettiCannon.Particle float)) :
  Forall (λ p, ∃ j, 1 ≤ j ≤ n
                    ∧ ConfettiCannon.leb (ConfettiCannon.life_after j p)
                        (ConfettiCannon.lit 0) = true) ps →
  Forall (λ p, (0 < ConfettiCannon.decay p)%Q) psQ →
  Forall (λ p, ∃ k, k ≤ 99 ∧ ConfettiCannon.default_decay_aged k p) ps64 →
  (∀ k, length (ConfettiCannon.frames height (S k) ps)
        ≤ length (ConfettiCannon.frames height k ps))
  ∧ (∀ m, n ≤ m → ConfettiCannon.frames height m ps = [])
  ∧ (∀ m, max_list (ConfettiCannon.frames_needed <$> psQ) ≤ m →
          ConfettiCannon.frames heightQ m psQ = [])
  ∧ (∀ m, 100 ≤ m → ConfettiCannon.frames height64 m ps64 = []).
Proof.
  intros Hlives Hdecay Hfresh.
  split; [intros k; apply frames_length_succ|].
  split.
  { intros m Hm. apply frames_empty_when_lives_run_out.
    intros p Hp.
    eapply Forall_forall in Hlives as (j & Hj & Hdead); [|exact Hp].
    exists j. split; [lia | exact Hdead]. }
  split.
  { intros m Hm. apply frames_empty_when_lives_run_out.
    intros p Hp.
    assert (ConfettiCannon.frames_needed p ≤ m) as Hneeded.
    { etrans; [|exact Hm]. apply max_list_elem_of_le.
      by apply list_elem_of_fmap_2. }
    exists m. split.
    - unfold ConfettiCannon.frames_needed in Hneeded. lia.
    - apply life_runs_out_exact; [|exact Hneeded].
      by eapply Forall_forall in Hdecay. }
  intros m Hm. apply frames_empty_when_lives_run_out.
  intros p Hp.
  eapply Forall_forall in Hfresh as (k & Hk & Haged); [|exact Hp].
  exists (100 - k). split; [lia|].
  exact (life_runs_out_binary64 k p Hk Haged).
Qed.

Lemma particle_count_never_grows_and_reaches_zero_witness :
  (∀ k, length (ConfettiCannon.frames 600%float (S k)
                  [ConfettiCannon.fast_decay_particle])
        ≤ length (ConfettiCannon.frames 600%float k
                    [ConfettiCannon.fast_decay_particle]))
  ∧ (∀ m, 4 ≤ m →
          ConfettiCannon.frames 600%float m
            [ConfettiCannon.fast_decay_particle]
          = [])
  ∧ (∀ m, max_list
            (ConfettiCannon.frames_needed
               <$> [ConfettiCannon.middle_particle;
                    ConfettiCannon.low_particle]) ≤ m →
          ConfettiCannon.frames 600%Q m
            [ConfettiCannon.middle_particle; ConfettiCannon.low_particle]
          = [])
  ∧ (∀ m, 100 ≤ m →
          ConfettiCannon.frames 600%float m
            [ConfettiCannon.middle_particle; ConfettiCannon.low_particle]
          = []).
Proof.
  apply (particle_count_never_grows_and_reaches_zero
           float ConfettiCannon.binary64
           600%float [ConfettiCannon.fast_decay_particle] 4
           600%Q [ConfettiCannon.middle_particle; ConfettiCannon.low_particle]
           600%float
           [ConfettiCannon.middle_particle; ConfettiCannon.low_particle]).
  - apply Forall_cons. split; [|apply Forall_nil_2].
    exists 4. split; [lia|]. vm_compute. reflexivity.
  - repeat constructor.
  - apply Forall_cons. split.
    { exists 0. split; [lia|]. by apply createParticle_fresh. }
    apply Forall_cons. split; [|apply Forall_nil_2].
    exists 0. split; [lia|]. by apply createParticle_fresh.
Defined.

(** * Further properties of the handlers and of their clients *)

(** ** Identifiers *)

Lemma alter_keeps_ids (f : GroceryItem → GroceryItem) (i : nat)
    (items : list GroceryItem) :
  (∀ it, id (f it) = id it) → id <$> alter f i items = id <$> items.
Proof.
  intros Hf. rewrite (list_fmap_alter id f (λ w, w)).
  - by apply list_alter_id.
  - apply Forall_forall. intros it _. apply Hf.
Qed.

Lemma apply_patch_id (body : JsVal) (it : GroceryItem) :
  id (apply_patch body it) = id it.
Proof. by destruct (apply_patch_frame body it) as [-> _]. Qed.

Lemma in_memory_put_keeps_ids (wanted : string) (body : JsVal)
    (items : list GroceryItem) :
  id <$> (InMemory.put_item wanted body items).2 = id <$> items.
Proof.
  unfold InMemory.put_item.
  destruct (findIndex (has_id wanted) items) as [i|]; simpl; [|done].
  apply alter_keeps_ids, apply_patch_id.
Qed.

(** X2. A [PUT /api/items/:id] never adds, removes or reorders items and
    never changes an identifier, whatever the identifier and the body: the
    list of identifiers of the collection is the same before and after.
    This holds on the in-memory server, on the file-backed server and on the
    cache of the BigQuery-backed server (whether or not the warehouse
    update succeeds). *)
Theorem put_keeps_the_identifiers
    (wanted now : string) (body : JsVal) (items disk : list GroceryItem)
    (flag : bool) :
  id <$> (InMemory.put_item wanted body items).2 = id <$> items
  ∧ id <$> FileBacked.groceryItems
             (FileBacked.put_item now flag wanted body
                {| FileBacked.groceryItems := items;
                   FileBacked.dataFile := disk |}).2
    = id <$> items
  ∧ id <$> (BigQueryBacked.put_item now flag wanted body items).2
    = id <$> items.
Proof.
  split; [apply in_memory_put_keeps_ids|].
  unfold FileBacked.put_item, BigQueryBacked.put_item.
  simpl. destruct (findIndex (has_id wanted) items) as [i|]; simpl;
    [|done].
  split.
  - apply alter_keeps_ids. intros it. apply patch_keeps_id.
  - destruct flag; simpl; apply alter_keeps_ids; intros it;
      apply patch_keeps_id.
Qed.

Lemma handle_keeps_ids_unique (r : Request) (items : list GroceryItem) :
  match r with
  | PostItem uuid _ _ => uuid ∉ id <$> items
  | _ => True
  end →
  NoDup (id <$> items) → NoDup (id <$> (handle r items).2).
Proof.
  intros Hfresh Hunique.
  destruct r as [|uuid now body|wanted body|wanted|]; simpl.
  - done.
  - rewrite fmap_app. apply NoDup_app. split; [done|]. split.
    + intros w Hw Hin. apply list_elem_of_singleton in Hin. simpl in Hin.
      by subst.
    + apply NoDup_singleton.
  - by rewrite in_memory_put_keeps_ids.
  - unfold InMemory.delete_item.
    destruct (findIndex (has_id wanted) items) as [i|]; simpl; [|done].
    rewrite list_fmap_delete. eapply sublist_NoDup; [exact Hunique|].
    apply sublist_delete.
  - eapply sublist_NoDup; [exact Hunique|].
    apply fmap_sublist, sublist_filter.
Qed.

Lemma serve_cons_state (r : Request) (rs : list Request)
    (items : list GroceryItem) :
  (serve (r :: rs) items).2 = (serve rs (handle r items).2).2.
Proof.
  simpl. destruct (handle r items) as [resp items']. simpl.
  by destruct (serve rs items') as [resps final].
Qed.

(** X1. Identifiers stay unique.  If the identifiers of the stored items
    are pairwise different and every [POST] of a request sequence is given
    an identifier that no stored item carries at that moment, then after the
    whole sequence (lists, creates, patches, deletes and clears, in any
    order) the identifiers are still pairwise different. *)
Theorem identifiers_stay_unique
    (rs : list Request) (items : list GroceryItem) :
  fresh_uuids rs items = true →
  NoDup (id <$> items) →
  NoDup (id <$> (serve rs items).2).
Proof.
  revert items. induction rs as [|r rs IH]; intros items Hfresh Hunique;
    [done|].
  simpl in Hfresh. apply andb_true_iff in Hfresh as [Hr Hrest].
  assert (NoDup (id <$> (handle r items).2)) as Hstep.
  { apply handle_keeps_ids_unique; [|done].
    destruct r; try done. by apply bool_decide_eq_true in Hr. }
  rewrite serve_cons_state. by apply IH.
Qed.

Lemma identifiers_stay_unique_witness :
  NoDup (id <$> (serve [PostItem "id-eggs" "2024-05-01T11:00:00.000Z"
                          (JObj {[ "name" := JStr "eggs" ]});
                        PutItem "id-milk" bought_true;
                        ClearBought;
                        PostItem "id-bread" "2024-05-01T11:05:00.000Z"
                          (JObj {[ "name" := JStr "bread" ]});
                        DeleteItem "id-soap"]
                   [milk; bread; soap]).2).
Proof.
  apply (identifiers_stay_unique
           [PostItem "id-eggs" "2024-05-01T11:00:00.000Z"
              (JObj {[ "name" := JStr "eggs" ]});
            PutItem "id-milk" bought_true;
            ClearBought;
            PostItem "id-bread" "2024-05-01T11:05:00.000Z"
              (JObj {[ "name" := JStr "bread" ]});
            DeleteItem "id-soap"]
           [milk; bread; soap]).
  - vm_compute. reflexivity.
  - apply (bool_decide_unpack _). vm_compute. exact I.
Defined.

(** ** Patching twice, patching with nothing *)

Lemma findIndex_by_ids (wanted : string) (items items' : list GroceryItem) :
  id <$> items = id <$> items' →
  findIndex (has_id wanted) items = findIndex (has_id wanted) items'.
Proof.
  revert items'. induction items as [|a items IH]; intros [|b items'] Hids;
    try done.
  simpl in Hids. injection Hids as Hab Hrest. simpl.
  unfold has_id at 1 3. rewrite Hab. by rewrite (IH items').
Qed.

Lemma apply_patch_twice (body : JsVal) (it : GroceryItem) :
  apply_patch body (apply_patch body it) = apply_patch body it.
Proof.
  unfold apply_patch, assign_if_defined.
  by destruct (is_defined (prop "notes" body)),
    (is_defined (prop "quantity" body)), (is_defined (prop "bought" body)).
Qed.

(** X3. On the in-memory server a [PUT /api/items/:id] is idempotent:
    sending the same request a second time gives the same response as the
    first time and leaves the collection as the first request left it,
    whatever the identifier (known or not) and the body. *)
Theorem put_twice_is_put_once
    (wanted : string) (body : JsVal) (items : list GroceryItem) :
  InMemory.put_item wanted body (InMemory.put_item wanted body items).2
  = InMemory.put_item wanted body items.
Proof.
  pose proof (in_memory_put_keeps_ids wanted body items) as Hids.
  apply (findIndex_by_ids wanted) in Hids.
  unfold InMemory.put_item in *.
  destruct (findIndex (has_id wanted) items) as [i|] eqn:Hfound; simpl in *.
  - rewrite Hids. rewrite list_alter_alter_eq.
    assert (alter (apply_patch body ∘ apply_patch body) i items
            = alter (apply_patch body) i items) as ->; [|done].
    apply list_alter_ext; [|done]. intros it _. apply apply_patch_twice.
  - by rewrite Hfound.
Qed.

Lemma apply_patch_nothing (body : JsVal) (it : GroceryItem) :
  prop "bought" body = JUndefined →
  prop "quantity" body = JUndefined →
  prop "notes" body = JUndefined →
  apply_patch body it = it.
Proof.
  intros Hb Hq Hn. unfold apply_patch, assign_if_defined.
  rewrite Hb, Hq, Hn. simpl. by destruct it.
Qed.

(** X4. A [PUT /api/items/:id] whose body has none of the keys [bought],
    [quantity], [notes] (an empty object, or one with other keys only, such
    as [name]) changes nothing on the in-memory server: the collection is
    the same afterwards, and the answer is 200 with the stored item when the
    identifier is known.  In particular a [name] or [category] cannot be
    changed through the interface. *)
Theorem put_without_patchable_keys_changes_nothing
    (pre post : list GroceryItem) (it : GroceryItem) (body : JsVal) :
  id it ∉ id <$> pre →
  prop "bought" body = JUndefined →
  prop "quantity" body = JUndefined →
  prop "notes" body = JUndefined →
  InMemory.put_item (id it) body (pre ++ it :: post)
  = ({| status := 200; payload := PItem it |}, pre ++ it :: post).
Proof.
  intros Hpre Hb Hq Hn. rewrite put_item_first by done.
  by rewrite apply_patch_nothing.
Qed.

Lemma put_without_patchable_keys_changes_nothing_witness :
  InMemory.put_item (id bread)
    (JObj {[ "name" := JStr "baguette"; "category" := JStr "other" ]})
    ([milk] ++ bread :: [soap])
  = ({| status := 200; payload := PItem bread |}, [milk] ++ bread :: [soap]).
Proof.
  apply (put_without_patchable_keys_changes_nothing [milk] [soap] bread
           (JObj {[ "name" := JStr "baguette";
                    "category" := JStr "other" ]})).
  - apply (bool_decide_unpack _). vm_compute. exact I.
  - reflexivity.
  - reflexivity.
  - reflexivity.
Defined.

(** ** Deleting a stored item *)

Lemma first_with_id (wanted : string) (items : list GroceryItem) :
  wanted ∈ id <$> items →
  ∃ pre it post,
    items = pre ++ it :: post ∧ id it = wanted ∧ wanted ∉ id <$> pre.
Proof.
  induction items as [|a items IH]; simpl; intros Hin.
  - by apply elem_of_nil in Hin.
  - destruct (decide (id a = wanted)) as [Ha|Ha].
    + exists [], a, items. split; [done|]. split; [done|]. apply not_elem_of_nil.
    + apply elem_of_cons in Hin as [Hin|Hin]; [congruence|].
      destruct (IH Hin) as (pre & it & post & -> & Hid & Hpre).
      exists (a :: pre), it, post. split; [done|]. split; [done|].
      simpl. apply not_elem_of_cons. split; [congruence | done].
Qed.

(** X5. Deleting a stored item.  When the identifiers of the collection are
    pairwise different and one item carries the identifier, [DELETE
    /api/items/:id] answers 204 and removes that item and nothing else (the
    other items keep their order); afterwards no item carries the
    identifier, so the same request sent again answers 404 and changes
    nothing. *)
Theorem delete_known_id_then_again
    (items : list GroceryItem) (wanted : string) :
  NoDup (id <$> items) →
  wanted ∈ id <$> items →
  ∃ pre it post,
    items = pre ++ it :: post
    ∧ id it = wanted
    ∧ InMemory.delete_item wanted items
      = ({| status := 204; payload := PEmpty |}, pre ++ post)
    ∧ (wanted ∉ id <$> (pre ++ post))
    ∧ InMemory.delete_item wanted (pre ++ post)
      = ({| status := 404; payload := PError "Item not found" |},
         pre ++ post).
Proof.
  intros Hunique Hin.
  destruct (first_with_id wanted items Hin) as (pre & it & post & -> & Hid & Hpre).
  exists pre, it, post. split; [done|]. split; [done|].
  assert (wanted ∉ id <$> (pre ++ post)) as Hgone.
  { rewrite fmap_app in *. simpl in Hunique.
    apply NoDup_app in Hunique as (_ & _ & Hpost).
    apply NoDup_cons in Hpost as [Hpost _]. rewrite Hid in Hpost.
    intros Hin'. apply elem_of_app in Hin' as [Hin'|Hin']; done. }
  split; [subst wanted; by apply delete_item_first|].
  split; [done|].
  unfold InMemory.delete_item. by rewrite findIndex_absent.
Qed.

Lemma delete_known_id_then_again_witness :
  ∃ pre it post,
    [milk; bread; soap] = pre ++ it :: post
    ∧ id it = "id-bread"
    ∧ InMemory.delete_item "id-bread" [milk; bread; soap]
      = ({| status := 204; payload := PEmpty |}, pre ++ post)
    ∧ ("id-bread" ∉ id <$> (pre ++ post))
    ∧ InMemory.delete_item "id-bread" (pre ++ post)
      = ({| status := 404; payload := PError "Item not found" |},
         pre ++ post).
Proof.
  apply (delete_known_id_then_again [milk; bread; soap] "id-bread").
  - apply (bool_decide_unpack _). vm_compute. exact I.
  - apply (bool_decide_unpack _). vm_compute. exact I.
Defined.

(** ** Checking an item off and clearing *)

Lemma filter_not_bought_all (items : list GroceryItem) :
  Forall (λ it, truthy (bought it) = false) items →
  filter (λ it, ¬ truthy (bought it)) items = items.
Proof.
  intros Hnone. apply filter_all. eapply Forall_impl; [exact Hnone|].
  intros it Hit. by apply Is_true_false.
Qed.

(** X6. Checking an item off and then clearing is deleting it.  On a
    collection in which no item is bought, [PUT /api/items/:id] with
    [{ bought: true }] followed by [DELETE /api/items/bought/clear] leaves
    the collection that [DELETE /api/items/:id] leaves: without the first
    item that carries the identifier, or unchanged when none does. *)
Theorem check_off_then_clear_is_delete
    (items : list GroceryItem) (wanted : string) :
  Forall (λ it, truthy (bought it) = false) items →
  (serve [PutItem wanted bought_true; ClearBought] items).2
  = (InMemory.delete_item wanted items).2.
Proof.
  intros Hnone. simpl.
  destruct (decide (wanted ∈ id <$> items)) as [Hin|Hout].
  - destruct (first_with_id wanted items Hin)
      as (pre & it & post & -> & <- & Hpre).
    rewrite put_item_first, delete_item_first by done. simpl.
    apply Forall_app in Hnone as [Hpre_none Hpost_none].
    apply Forall_cons in Hpost_none as [_ Hpost_none].
    rewrite filter_app, filter_cons_False.
    + by rewrite !filter_not_bought_all.
    + rewrite apply_patch_bought_true. simpl. intros Hnot. by apply Hnot.
  - unfold InMemory.put_item, InMemory.delete_item.
    rewrite findIndex_absent by done. simpl.
    by apply filter_not_bought_all.
Qed.

Lemma check_off_then_clear_is_delete_witness :
  (serve [PutItem "id-soap" bought_true; ClearBought] [milk; soap]).2
  = (InMemory.delete_item "id-soap" [milk; soap]).2.
Proof.
  apply (check_off_then_clear_is_delete [milk; soap] "id-soap").
  repeat constructor.
Defined.

(** ** The shopping page clearing the bought items *)

Lemma serve_deletes_skip (a : GroceryItem) (ws : list string)
    (items : list GroceryItem) :
  id a ∉ ws →
  (serve (DeleteItem <$> ws) (a :: items)).2
  = a :: (serve (DeleteItem <$> ws) items).2.
Proof.
  revert items. induction ws as [|w ws IH]; intros items Hnot; [done|].
  apply not_elem_of_cons in Hnot as [Hne Hrest].
  rewrite !fmap_cons, !serve_cons_state. simpl.
  unfold InMemory.delete_item. simpl.
  assert (has_id w a = false) as -> by by apply has_id_false.
  destruct (findIndex (has_id w) items) as [i|]; simpl; by apply IH.
Qed.

Lemma serve_deletes_of_bought (items : list GroceryItem) :
  NoDup (id <$> items) →
  (serve (DeleteItem <$> (id <$> filter (λ it, truthy (bought it)) items))
     items).2
  = filter (λ it, ¬ truthy (bought it)) items.
Proof.
  induction items as [|a items IH]; intros Hunique; [done|].
  simpl in Hunique. apply NoDup_cons in Hunique as [Ha Hunique].
  specialize (IH Hunique).
  destruct (truthy (bought a)) eqn:Hbought.
  - rewrite filter_cons_True by by rewrite Hbought.
    rewrite filter_cons_False by (rewrite Hbought; intros Hnot; by apply Hnot).
    rewrite !fmap_cons, serve_cons_state. simpl.
    unfold InMemory.delete_item. simpl.
    assert (has_id (id a) a = true) as -> by by apply has_id_true.
    simpl. exact IH.
  - rewrite filter_cons_False by (rewrite Hbought; intros []).
    rewrite filter_cons_True by (rewrite Hbought; intros []).
    rewrite serve_deletes_skip; [by rewrite IH|].
    intros Hin. apply Ha.
    eapply elem_of_sublist; [exact Hin|].
    apply fmap_sublist, sublist_filter.
Qed.

(** X7. The shopping page's "clear bought" is the server's.  The page does
    not call [DELETE /api/items/bought/clear]; it sends one [DELETE
    /api/items/:id] per bought item of its list.  When that list is the
    server's collection, the identifiers are pairwise different, the user
    confirms and every request reaches the server, the in-memory server ends
    with the collection that the clear endpoint would have left.  When the
    user does not confirm nothing is sent. *)
Theorem page_clear_is_server_clear
    (items : list GroceryItem) (delivered : nat) :
  NoDup (id <$> items) →
  length (filter (λ it, truthy (bought it)) items) ≤ delivered →
  (clearBoughtItems true delivered items items).2
    = (InMemory.clear_bought items).2
  ∧ clearBoughtItems false delivered items items = ([], items).
Proof.
  intros Hunique Hdelivered. unfold clearBoughtItems. split.
  - case_bool_decide as Hnone.
    + simpl. symmetry. apply filter_not_bought_all.
      apply Forall_forall. intros it Hit.
      destruct (truthy (bought it)) eqn:Hbought; [|done].
      apply length_zero_iff_nil in Hnone.
      assert (it ∈ filter (λ it, truthy (bought it)) items) as Hin.
      { apply list_elem_of_filter. by rewrite Hbought. }
      rewrite Hnone in Hin. by apply elem_of_nil in Hin.
    + rewrite take_ge by by rewrite length_fmap.
      rewrite (list_fmap_compose id DeleteItem).
      by apply serve_deletes_of_bought.
  - by case_bool_decide.
Qed.

Lemma page_clear_is_server_clear_witness :
  (clearBoughtItems true 1 [milk; bread; soap] [milk; bread; soap]).2
    = (InMemory.clear_bought [milk; bread; soap]).2
  ∧ clearBoughtItems false 1 [milk; bread; soap] [milk; bread; soap]
    = ([], [milk; bread; soap]).
Proof.
  apply (page_clear_is_server_clear [milk; bread; soap] 1).
  - apply (bool_decide_unpack _). vm_compute. exact I.
  - vm_compute. lia.
Defined.

(** ** The shopping page toggling an item *)

Lemma apply_patch_only_bought (b : bool) (it : GroceryItem) :
  apply_patch (JObj {[ "bought" := JBool b ]}) it = set_bought (JBool b) it.
Proof.
  unfold apply_patch, assign_if_defined, prop.
  rewrite lookup_singleton_eq, !lookup_singleton_ne by done. done.
Qed.

Lemma toggleItem_first (completed : bool) (pre post server : list GroceryItem)
    (it : GroceryItem) :
  id it ∉ id <$> pre →
  toggleItem completed (id it) (pre ++ it :: post) server
  = if completed
    then (pre ++ set_bought (JBool (negb (truthy (bought it)))) it :: post,
          (InMemory.put_item (id it)
             (JObj {[ "bought" := JBool (negb (truthy (bought it))) ]})
             server).2)
    else (pre ++ set_bought (JBool (truthy (bought it))) it :: post, server).
Proof.
  intros Hpre. unfold toggleItem.
  rewrite (findIndex_first (id it) pre post it Hpre eq_refl).
  rewrite list_lookup_middle by done.
  destruct completed; rewrite alter_middle; [done|].
  by rewrite negb_involutive.
Qed.

Lemma set_bought_same (b : bool) (it : GroceryItem) :
  bought it = JBool b → set_bought (JBool b) it = it.
Proof. intros Hb. destruct it; simpl in *. by rewrite Hb. Qed.

(** X8. Toggling an item on the shopping page.  When the page's list is the
    in-memory server's collection: after a toggle whose request was
    processed, the page's list and the server's collection are again the
    same list, in which the toggled item has the boolean [bought] opposite
    to what it had.  If moreover every [bought] is a boolean, toggling the
    same item twice gives back the original list on both sides, and a
    toggle that fails before the server sees it leaves both sides as they
    were. *)
Theorem toggle_keeps_page_and_server_in_sync
    (items : list GroceryItem) (wanted : string) :
  Forall (λ it, ∃ b, bought it = JBool b) items →
  (toggleItem true wanted items items).1
    = (toggleItem true wanted items items).2
  ∧ toggleItem true wanted (toggleItem true wanted items items).1
      (toggleItem true wanted items items).2
    = (items, items)
  ∧ toggleItem false wanted items items = (items, items).
Proof.
  intros Hbool.
  destruct (decide (wanted ∈ id <$> items)) as [Hin|Hout].
  - destruct (first_with_id wanted items Hin)
      as (pre & it & post & -> & <- & Hpre).
    apply Forall_app in Hbool as [_ Hbool].
    apply Forall_cons in Hbool as [[b Hb] _].
    assert (∀ it', id it' = id it →
              toggleItem true (id it) (pre ++ it' :: post)
                (pre ++ it' :: post)
              = (pre ++ set_bought (JBool (negb (truthy (bought it')))) it'
                   :: post,
                 pre ++ set_bought (JBool (negb (truthy (bought it')))) it'
                   :: post)) as Hstep.
    { intros it' Hid. rewrite <- Hid.
      rewrite toggleItem_first by by rewrite Hid.
      rewrite put_item_first by by rewrite Hid.
      by rewrite apply_patch_only_bought. }
    rewrite (Hstep it eq_refl). cbn [fst snd].
    split; [done|]. split.
    + rewrite (Hstep (set_bought (JBool (negb (truthy (bought it)))) it)
                 eq_refl).
      simpl. rewrite Hb. simpl.
      rewrite negb_involutive.
      assert (set_bought (JBool b) (set_bought (JBool (negb b)) it) = it)
        as ->; [|done].
      destruct it; simpl in *. by rewrite Hb.
    + rewrite toggleItem_first by done.
      rewrite Hb. simpl. by rewrite set_bought_same.
  - unfold toggleItem. rewrite findIndex_absent by done. simpl.
    rewrite findIndex_absent by done. done.
Qed.

Lemma toggle_keeps_page_and_server_in_sync_witness :
  (toggleItem true "id-soap" [milk; bread; soap] [milk; bread; soap]).1
    = (toggleItem true "id-soap" [milk; bread; soap] [milk; bread; soap]).2
  ∧ toggleItem true "id-soap"
      (toggleItem true "id-soap" [milk; bread; soap] [milk; bread; soap]).1
      (toggleItem true "id-soap" [milk; bread; soap] [milk; bread; soap]).2
    = ([milk; bread; soap], [milk; bread; soap])
  ∧ toggleItem false "id-soap" [milk; bread; soap] [milk; bread; soap]
    = ([milk; bread; soap], [milk; bread; soap]).
Proof.
  apply (toggle_keeps_page_and_server_in_sync [milk; bread; soap] "id-soap").
  repeat constructor; by eexists.
Defined.

(** ** The file-backed server and its data file *)

(** X9. The data file mirrors the array.  On the file-backed server, if the
    data file holds the array before a request and the write of that request
    (if it makes one) succeeds, the data file holds the array after the
    request: for a create, a patch, a delete, a clear and a list, whether
    the identifier is known or not.  When the write of a create fails, the
    array has the new item and the file keeps its old content. *)
Theorem data_file_mirrors_the_array
    (st : FileBacked.Store) (uuid now wanted : string) (body : JsVal) :
  FileBacked.dataFile st = FileBacked.groceryItems st →
  (FileBacked.dataFile (FileBacked.post_item uuid now true body st).2
   = FileBacked.groceryItems (FileBacked.post_item uuid now true body st).2)
  ∧ (FileBacked.dataFile (FileBacked.put_item now true wanted body st).2
     = FileBacked.groceryItems (FileBacked.put_item now true wanted body st).2)
  ∧ (FileBacked.dataFile (FileBacked.delete_item true wanted st).2
     = FileBacked.groceryItems (FileBacked.delete_item true wanted st).2)
  ∧ (FileBacked.dataFile (FileBacked.clear_bought true st).2
     = FileBacked.groceryItems (FileBacked.clear_bought true st).2)
  ∧ (FileBacked.dataFile (FileBacked.get_items st).2
     = FileBacked.groceryItems (FileBacked.get_items st).2)
  ∧ (FileBacked.dataFile (FileBacked.post_item uuid now false body st).2
     = FileBacked.groceryItems st
     ∧ FileBacked.groceryItems (FileBacked.post_item uuid now false body st).2
       = FileBacked.groceryItems st ++ [InMemory.newItem uuid now body]).
Proof.
  intros Hmirror.
  unfold FileBacked.post_item, FileBacked.put_item, FileBacked.delete_item,
    FileBacked.clear_bought, FileBacked.get_items, FileBacked.saveItems.
  destruct (findIndex (has_id wanted) (FileBacked.groceryItems st));
    simpl; repeat split; done.
Qed.

Lemma data_file_mirrors_the_array_witness :
  FileBacked.dataFile
    (FileBacked.put_item "2024-05-02T09:00:00.000Z" true "id-milk"
       bought_true
       {| FileBacked.groceryItems := [milk; soap];
          FileBacked.dataFile := [milk; soap] |}).2
  = FileBacked.groceryItems
      (FileBacked.put_item "2024-05-02T09:00:00.000Z" true "id-milk"
         bought_true
         {| FileBacked.groceryItems := [milk; soap];
            FileBacked.dataFile := [milk; soap] |}).2.
Proof.
  destruct (data_file_mirrors_the_array
              {| FileBacked.groceryItems := [milk; soap];
                 FileBacked.dataFile := [milk; soap] |}
              "id-eggs" "2024-05-02T09:00:00.000Z" "id-milk" bought_true
              eq_refl) as (_ & Hput & _).
  exact Hput.
Defined.

Lemma stamp_boughtAt_not_boolean (cleared : JsVal) (now : string)
    (body : JsVal) (it : GroceryItem) :
  (∀ b, prop "bought" body ≠ JBool b) →
  stamp_boughtAt cleared now body it = it.
Proof.
  intros Hnot. unfold stamp_boughtAt.
  destruct (prop "bought" body) as [| |b| | | |] eqn:Hb; try done.
  by destruct (Hnot b).
Qed.

(** X10. The file-backed server answers like the in-memory server.  On the
    same array, a create, a delete, a clear and a list get the same response
    and leave the same array on both servers, whether or not the file write
    succeeds; so does a patch whose body does not set [bought] to a boolean
    (the only requests on which the file-backed server does more: it stamps
    or deletes [boughtAt]). *)
Theorem file_server_answers_like_in_memory
    (st : FileBacked.Store) (uuid now wanted : string) (body : JsVal)
    (written : bool) :
  (∀ b, prop "bought" body ≠ JBool b) →
  ((FileBacked.post_item uuid now written body st).1,
   FileBacked.groceryItems (FileBacked.post_item uuid now written body st).2)
    = InMemory.post_item uuid now body (FileBacked.groceryItems st)
  ∧ ((FileBacked.delete_item written wanted st).1,
     FileBacked.groceryItems (FileBacked.delete_item written wanted st).2)
    = InMemory.delete_item wanted (FileBacked.groceryItems st)
  ∧ ((FileBacked.clear_bought written st).1,
     FileBacked.groceryItems (FileBacked.clear_bought written st).2)
    = InMemory.clear_bought (FileBacked.groceryItems st)
  ∧ ((FileBacked.get_items st).1,
     FileBacked.groceryItems (FileBacked.get_items st).2)
    = InMemory.get_items (FileBacked.groceryItems st)
  ∧ ((FileBacked.put_item now written wanted body st).1,
     FileBacked.groceryItems (FileBacked.put_item now written wanted body st).2)
    = InMemory.put_item wanted body (FileBacked.groceryItems st).
Proof.
  intros Hnot.
  unfold FileBacked.post_item, FileBacked.put_item, FileBacked.delete_item,
    FileBacked.clear_bought, FileBacked.get_items, FileBacked.saveItems,
    InMemory.post_item, InMemory.put_item, InMemory.delete_item,
    InMemory.clear_bought, InMemory.get_items.
  destruct (findIndex (has_id wanted) (FileBacked.groceryItems st)) as [i|];
    simpl; repeat split; try done.
  assert (alter (FileBacked.patch now body) i (FileBacked.groceryItems st)
          = alter (apply_patch body) i (FileBacked.groceryItems st)) as ->;
    [|done].
  apply list_alter_ext; [|done]. intros it _.
  unfold FileBacked.patch. by apply stamp_boughtAt_not_boolean.
Qed.

Lemma file_server_answers_like_in_memory_witness :
  ((FileBacked.put_item "2024-05-02T09:00:00.000Z" false "id-milk"
      (JObj {[ "quantity" := JNum 5 ]})
      {| FileBacked.groceryItems := [milk; soap];
         FileBacked.dataFile := [] |}).1,
   FileBacked.groceryItems
     (FileBacked.put_item "2024-05-02T09:00:00.000Z" false "id-milk"
        (JObj {[ "quantity" := JNum 5 ]})
        {| FileBacked.groceryItems := [milk; soap];
           FileBacked.dataFile := [] |}).2)
  = InMemory.put_item "id-milk" (JObj {[ "quantity" := JNum 5 ]})
      [milk; soap].
Proof.
  destruct (file_server_answers_like_in_memory
              {| FileBacked.groceryItems := [milk; soap];
                 FileBacked.dataFile := [] |}
              "id-eggs" "2024-05-02T09:00:00.000Z" "id-milk"
              (JObj {[ "quantity" := JNum 5 ]}) false)
    as (_ & _ & _ & _ & Hput).
  - intros b. discriminate.
  - exact Hput.
Defined.

(** ** The BigQuery-backed server when the warehouse fails *)

(** X11. A warehouse statement that throws.  On the BigQuery-backed server
    a create, a delete of a stored item and a clear whose warehouse
    statement throws answer 500 with an error body and leave the cache as it
    was.  A patch of a stored item whose warehouse update throws answers 500
    too, but the cached item has already been patched: after a failed
    [{ bought: true }] the cache holds the item as bought, with [boughtAt]
    set to the time of the request. *)
Theorem bigquery_failure_answers_500
    (pre post : list GroceryItem) (it : GroceryItem) (uuid now : string)
    (body patch_body : JsVal) :
  id it ∉ id <$> pre →
  prop "bought" patch_body = JBool true →
  BigQueryBacked.post_item uuid now false body (pre ++ it :: post)
    = ({| status := 500; payload := PError "Failed to add item" |},
       pre ++ it :: post)
  ∧ BigQueryBacked.delete_item false (id it) (pre ++ it :: post)
    = ({| status := 500; payload := PError "Failed to delete item" |},
       pre ++ it :: post)
  ∧ BigQueryBacked.clear_bought false (pre ++ it :: post)
    = ({| status := 500; payload := PError "Failed to clear bought items" |},
       pre ++ it :: post)
  ∧ ∃ it',
      BigQueryBacked.put_item now false (id it) patch_body (pre ++ it :: post)
        = ({| status := 500; payload := PError "Failed to update item" |},
           pre ++ it' :: post)
      ∧ bought it' = JBool true
      ∧ boughtAt it' = JStr now.
Proof.
  intros Hpre Hbought. split; [done|]. split.
  { unfold BigQueryBacked.delete_item.
    by rewrite (findIndex_first (id it) pre post it Hpre eq_refl). }
  split; [done|].
  exists (BigQueryBacked.patch now patch_body it).
  split; [by rewrite bigquery_put_item_first|].
  unfold BigQueryBacked.patch. rewrite stamp_boughtAt_true by done. simpl.
  split; [by apply apply_patch_bought | done].
Qed.

Lemma bigquery_failure_answers_500_witness :
  ∃ it',
    BigQueryBacked.put_item "2024-05-02T09:00:00.000Z" false (id milk)
      bought_true ([] ++ milk :: [soap])
      = ({| status := 500; payload := PError "Failed to update item" |},
         [] ++ it' :: [soap])
    ∧ bought it' = JBool true
    ∧ boughtAt it' = JStr "2024-05-02T09:00:00.000Z".
Proof.
  apply (bigquery_failure_answers_500 [] [soap] milk "id-eggs"
           "2024-05-02T09:00:00.000Z" (JObj {[ "name" := JStr "eggs" ]})
           bought_true).
  - apply not_elem_of_nil.
  - reflexivity.
Defined.

(** X12. A list whose warehouse query fails.  [GET /api/items] on the
    BigQuery-backed server then still answers 200, with an empty array, and
    the cache is emptied whatever it held; until a later list succeeds,
    every patch and every delete answers 404 without asking the
    warehouse. *)
Theorem bigquery_failed_list_empties_the_cache
    (items : list GroceryItem) (wanted now : string) (body : JsVal)
    (stored : bool) :
  BigQueryBacked.get_items None items
    = ({| status := 200; payload := PItems [] |}, [])
  ∧ BigQueryBacked.put_item now stored wanted body
      (BigQueryBacked.get_items None items).2
    = ({| status := 404; payload := PError "Item not found" |}, [])
  ∧ BigQueryBacked.delete_item stored wanted
      (BigQueryBacked.get_items None items).2
    = ({| status := 404; payload := PError "Item not found" |}, []).
Proof. done. Qed.



(** * Further properties of the confetti cannon *)

Section LaunchFacts.

Import ConfettiCannon Launchers.

Context {N : Type} `{Number N} `{Maths N}.

Lemma push_each_seq (make : nat → Particle N) (i togo : nat)
    (ps : list (Particle N)) :
  push_each make i togo ps = ps ++ (make <$> seq i togo).
Proof.
  revert i ps. induction togo as [|togo IH]; intros i ps; simpl.
  - by rewrite app_nil_r.
  - by rewrite IH, <- app_assoc.
Qed.

Lemma push_particles_seq (px py : N) (options : Options N)
    (draws : nat → Draws N) (i togo : nat) (ps : list (Particle N)) :
  push_particles px py options draws i togo ps
  = ps ++ ((λ k, createParticle px py options (draws k)) <$> seq i togo).
Proof.
  revert i ps. induction togo as [|togo IH]; intros i ps; simpl.
  - by rewrite app_nil_r.
  - by rewrite IH, <- app_assoc.
Qed.

Lemma half_rounded_up (count : nat) :
  2 * ((count + 1) / 2) ≤ count + 1 < 2 * ((count + 1) / 2) + 2.
Proof.
  pose proof (Nat.div_mod_eq (count + 1) 2) as Heq.
  pose proof (Nat.mod_upper_bound (count + 1) 2) as Hlt. lia.
Qed.

Lemma push_half_seq (make : nat → Particle N) (count fuel i : nat)
    (ps : list (Particle N)) :
  (count + 1) / 2 - i ≤ fuel →
  push_half make count fuel i ps
  = ps ++ (make <$> seq i ((count + 1) / 2 - i)).
Proof.
  pose proof (half_rounded_up count) as Hhalf.
  generalize dependent ((count + 1) / 2). intros half Hhalf.
  revert i ps. induction fuel as [|fuel IH]; intros i ps Hfuel;
    cbn [push_half].
  - replace (half - i) with 0 by lia.
    by rewrite app_nil_r.
  - case_bool_decide as Hguard.
    + rewrite IH by lia.
      replace (half - i) with (S (half - S i)) by lia.
      cbn [seq]. rewrite fmap_cons. by rewrite <- app_assoc.
    + replace (half - i) with 0 by lia.
      by rewrite app_nil_r.
Qed.

Lemma animate_if_idle_keeps_invariant (height : N) (handle : positive)
    (c : Cannon N) :
  particles c ≠ [] ∨ animationId c = None →
  (animationId (animate_if_idle height handle c) = None
   ↔ particles (animate_if_idle height handle c) = []).
Proof.
  intros Hc. unfold animate_if_idle.
  destruct (animationId c) as [h0|] eqn:Hid.
  - destruct Hc as [Hc|Hc]; [|done]. rewrite Hid. split; done.
  - apply animate_schedules_while_particles_left.
Qed.

(** X14. The cannon is idle exactly when it has no particle.  If
    [animationId] is [null] exactly when [particles] is empty (as it is for
    a new cannon), this is still so after [fire], [celebrate], [burst], the
    call of [rain], an animation frame, and [animate] itself. *)
Theorem cannon_is_idle_exactly_when_empty
    (c : Cannon N) (width height px py : N) (handle : positive)
    (count : nat) (options : Options N) (draws draws' : nat → Draws N)
    (burst_draws : nat → N * Draws N) :
  (animationId c = None ↔ particles c = []) →
  (animationId (fire height handle px py count options draws c) = None
   ↔ particles (fire height handle px py count options draws c) = [])
  ∧ (animationId (celebrate width height handle count draws draws' c) = None
     ↔ particles (celebrate width height handle count draws draws' c) = [])
  ∧ (animationId (burst height handle px py count burst_draws c) = None
     ↔ particles (burst height handle px py count burst_draws c) = [])
  ∧ (animationId (rain height handle c) = None
     ↔ particles (rain height handle c) = [])
  ∧ (animationId (frame height handle c) = None
     ↔ particles (frame height handle c) = [])
  ∧ (animationId (animate height handle c) = None
     ↔ particles (animate height handle c) = []).
Proof.
  intros Hinv.
  assert (∀ new, particles c ++ new ≠ [] ∨ animationId c = None) as Hgrow.
  { intros new. destruct (animationId c) as [h0|] eqn:Hid; [left | by right].
    intros Hnil. apply app_eq_nil in Hnil as [Hnil _].
    apply Hinv in Hnil. discriminate Hnil. }
  split.
  { change (fire height handle px py count options draws c)
      with (animate_if_idle height handle
              {| particles := push_particles px py options draws 0 count
                                (particles c);
                 animationId := animationId c |}).
    apply animate_if_idle_keeps_invariant. simpl.
    rewrite push_particles_seq. apply Hgrow. }
  split.
  { unfold celebrate. apply animate_if_idle_keeps_invariant. simpl.
    pose proof (half_rounded_up count) as Hhalf.
    rewrite !push_half_seq by lia. rewrite <- app_assoc. apply Hgrow. }
  split.
  { unfold burst. apply animate_if_idle_keeps_invariant. simpl.
    rewrite push_each_seq. apply Hgrow. }
  split.
  { unfold rain. apply animate_if_idle_keeps_invariant.
    destruct (animationId c) as [h0|] eqn:Hid; [left | by right].
    intros Hnil. apply Hinv in Hnil. discriminate Hnil. }
  split.
  { unfold frame. destruct (animationId c) as [h0|] eqn:Hid.
    - apply animate_schedules_while_particles_left.
    - rewrite Hid. exact Hinv. }
  apply animate_schedules_while_particles_left.
Qed.

(** X15. [celebrate(count)] fires one particle from each side for every
    [i] with [i < count / 2].  The particles pushed are [(count + 1) / 2]
    left particles followed by as many right particles, after the particles
    the cannon already had; when the cannon is already animating nothing
    else changes, so the call adds [count] particles for an even [count]
    and [count + 1] for an odd one. *)
Theorem celebrate_adds_a_pair_per_two
    (c : Cannon N) (width height : N) (handle h0 : positive) (count : nat)
    (left_draws right_draws : nat → Draws N) :
  animationId c = Some h0 →
  celebrate width height handle count left_draws right_draws c
    = {| particles :=
           particles c
           ++ ((λ i, left_particle (mul height (lit 0.7)) (left_draws i))
                 <$> seq 0 ((count + 1) / 2))
           ++ ((λ i, right_particle width (mul height (lit 0.7))
                       (right_draws i))
                 <$> seq 0 ((count + 1) / 2));
         animationId := Some h0 |}
  ∧ (Nat.Even count →
     length (particles
               (celebrate width height handle count left_draws right_draws c))
     = length (particles c) + count)
  ∧ (Nat.Odd count →
     length (particles
               (celebrate width height handle count left_draws right_draws c))
     = length (particles c) + count + 1).
Proof.
  intros Hrunning.
  pose proof (half_rounded_up count) as Hhalf.
  assert (celebrate width height handle count left_draws right_draws c
          = {| particles :=
                 particles c
                 ++ ((λ i, left_particle (mul height (lit 0.7))
                             (left_draws i))
                       <$> seq 0 ((count + 1) / 2))
                 ++ ((λ i, right_particle width (mul height (lit 0.7))
                             (right_draws i))
                       <$> seq 0 ((count + 1) / 2));
               animationId := Some h0 |}) as Hclosed.
  { unfold celebrate, animate_if_idle. cbn [animationId].
    rewrite Hrunning. rewrite !push_half_seq by lia.
    by rewrite Nat.sub_0_r, <- app_assoc. }
  split; [exact Hclosed|]. rewrite Hclosed. cbn [particles].
  rewrite !length_app, !length_fmap, !length_seq.
  split.
  - intros [k ->]. lia.
  - intros [k ->]. lia.
Qed.

Lemma frame_on_idle_cannon (height : N) (handle : positive) (c : Cannon N)
    (n : nat) :
  animationId c = None → Nat.iter n (frame height handle) c = c.
Proof.
  intros Hidle. induction n as [|n IH]; [done|].
  rewrite Nat.iter_succ, IH. unfold frame. by rewrite Hidle.
Qed.

(** X16. [rain] on an idle cannon never shows.  On a cannon that is idle
    and has no particle, the call of [rain] runs [animate] at once, on no
    particle, and leaves the cannon idle.  The drops that the interval
    pushes afterwards never start the animation: after a tick the cannon has
    three particles and no pending frame, and no number of animation frames
    changes it, so the drops are neither moved, drawn nor removed until
    another launcher starts the animation. *)
Theorem rain_alone_is_never_animated
    (c : Cannon N) (width height : N) (handle : positive)
    (draws : nat → N * Draws N) (n : nat) :
  particles c = [] →
  animationId c = None →
  rain height handle c = c
  ∧ animationId (rain_tick width draws (rain height handle c)) = None
  ∧ length (particles (rain_tick width draws (rain height handle c))) = 3
  ∧ Nat.iter n (frame height handle)
      (rain_tick width draws (rain height handle c))
    = rain_tick width draws (rain height handle c).
Proof.
  intros Hempty Hidle.
  assert (rain height handle c = c) as Hrain.
  { unfold rain, animate_if_idle, animate. rewrite Hidle, Hempty.
    destruct c as [ps aid]. simpl in *. by subst. }
  rewrite Hrain. split; [done|]. split; [done|].
  split.
  { unfold rain_tick. cbn [particles].
    by rewrite push_each_seq, length_app, Hempty, length_fmap, length_seq. }
  by apply frame_on_idle_cannon.
Qed.

End LaunchFacts.

Lemma cannon_is_idle_exactly_when_empty_witness :
  ConfettiCannon.animationId
    (@Launchers.celebrate float ConfettiCannon.binary64
       Launchers.sample_maths 800%float 600%float 1%positive 100
       Launchers.sample_draws Launchers.sample_draws Launchers.new_cannon)
    = None
  ↔ ConfettiCannon.particles
      (@Launchers.celebrate float ConfettiCannon.binary64
         Launchers.sample_maths 800%float 600%float 1%positive 100
         Launchers.sample_draws Launchers.sample_draws Launchers.new_cannon)
    = [].
Proof.
  destruct (@cannon_is_idle_exactly_when_empty float ConfettiCannon.binary64
              Launchers.sample_maths Launchers.new_cannon 800%float
              600%float 400%float 300%float 1%positive 100
              ConfettiCannon.no_options Launchers.sample_draws
              Launchers.sample_draws Launchers.sample_burst_draws)
    as (_ & Hcelebrate & _).
  - split; reflexivity.
  - exact Hcelebrate.
Defined.

Lemma celebrate_adds_a_pair_per_two_witness :
  length (ConfettiCannon.particles
            (@Launchers.celebrate float ConfettiCannon.binary64
               Launchers.sample_maths 800%float 600%float 1%positive 5
               Launchers.sample_draws Launchers.sample_draws
               Launchers.busy_cannon))
  = length (ConfettiCannon.particles Launchers.busy_cannon) + 5 + 1.
Proof.
  destruct (@celebrate_adds_a_pair_per_two float ConfettiCannon.binary64
              Launchers.sample_maths Launchers.busy_cannon 800%float
              600%float 1%positive 7%positive 5 Launchers.sample_draws
              Launchers.sample_draws eq_refl) as (_ & _ & Hodd).
  apply Hodd. exists 2. reflexivity.
Defined.

Lemma rain_alone_is_never_animated_witness :
  @Launchers.rain float ConfettiCannon.binary64 600%float 1%positive
    Launchers.new_cannon
  = Launchers.new_cannon
  ∧ ConfettiCannon.animationId
      (@Launchers.rain_tick float ConfettiCannon.binary64
         Launchers.sample_maths 800%float Launchers.sample_burst_draws
         (@Launchers.rain float ConfettiCannon.binary64 600%float 1%positive
            Launchers.new_cannon))
    = None
  ∧ length
      (ConfettiCannon.particles
         (@Launchers.rain_tick float ConfettiCannon.binary64
            Launchers.sample_maths 800%float Launchers.sample_burst_draws
            (@Launchers.rain float ConfettiCannon.binary64 600%float
               1%positive Launchers.new_cannon)))
    = 3
  ∧ Nat.iter 60 (Launchers.frame 600%float 1%positive)
      (@Launchers.rain_tick float ConfettiCannon.binary64
         Launchers.sample_maths 800%float Launchers.sample_burst_draws
         (@Launchers.rain float ConfettiCannon.binary64 600%float 1%positive
            Launchers.new_cannon))
    = @Launchers.rain_tick float ConfettiCannon.binary64
        Launchers.sample_maths 800%float Launchers.sample_burst_draws
        (@Launchers.rain float ConfettiCannon.binary64 600%float 1%positive
           Launchers.new_cannon).
Proof.
  apply (@rain_alone_is_never_animated float ConfettiCannon.binary64
           Launchers.sample_maths Launchers.new_cannon 800%float 600%float
           1%positive Launchers.sample_burst_draws 60).
  - reflexivity.
  - reflexivity.
Defined.

(** ** How long launched confetti lasts, in binary64 *)

Section LaunchedConfettiExpires.

Import ConfettiCannon Launchers.

Context `{M : Maths float}.

Lemma frame_iter_particles (height : float) (handle : positive)
    (c : Cannon float) (n : nat) :
  (animationId c = None ↔ particles c = []) →
  particles (Nat.iter n (frame height handle) c)
    = frames height n (particles c)
  ∧ (animationId (Nat.iter n (frame height handle) c) = None
     ↔ particles (Nat.iter n (frame height handle) c) = []).
Proof.
  intros Hinv. induction n as [|n [IHp IHi]]; [done|].
  rewrite Nat.iter_succ, frames_succ, <- IHp.
  generalize dependent (Nat.iter n (frame height handle) c).
  intros c' _ IHi. unfold frame.
  destruct (animationId c') as [h0|] eqn:Hid.
  - apply animate_schedules_while_particles_left.
  - assert (particles c' = []) as Hnil by by apply IHi.
    rewrite Hnil. split; [done|]. by rewrite Hid.
Qed.

Lemma launched_particles_expire (height : float) (handle : positive)
    (new : list (Particle float)) :
  Forall (default_decay_aged 0) new →
  Nat.iter 99 (frame height handle)
    (animate height handle {| particles := new; animationId := None |})
  = {| particles := []; animationId := None |}.
Proof.
  intros Hfresh.
  pose proof (animate_schedules_while_particles_left height handle
                {| particles := new; animationId := None |})
    as [Hfirst Hinv].
  destruct (frame_iter_particles height handle _ 99 Hinv) as [Hps Hidle].
  assert (particles
            (Nat.iter 99 (frame height handle)
               (animate height handle
                  {| particles := new; animationId := None |})) = [])
    as Hnil.
  { rewrite Hps, Hfirst. cbn [particles].
    rewrite <- (frames_unfold height 99 new).
    apply frames_empty_when_lives_run_out. intros p Hp.
    exists (100 - 0). split; [lia|].
    apply life_runs_out_binary64; [lia|].
    by eapply Forall_forall in Hfresh. }
  apply Hidle in Hnil as Hnone.
  destruct (Nat.iter 99 (frame height handle)
              (animate height handle
                 {| particles := new; animationId := None |}))
    as [ps aid].
  simpl in Hnil, Hnone. by subst.
Qed.

(** X17. Launched confetti is gone after a hundred frames.  In binary64, on
    a cannon that is idle and empty and whose canvas keeps its height:
    [fire] with options that give no [decay], [celebrate] and [burst] each
    run the first frame themselves, and after 99 more animation frames the
    cannon has no particle left and no frame pending, whatever the count,
    the position, the random draws and the values of [Math.cos] and
    [Math.sin]. *)
Theorem launched_confetti_is_gone_after_100_frames
    (c : Cannon float) (width height px py : float) (handle : positive)
    (count : nat) (options : Options float)
    (draws draws' : nat → Draws float)
    (burst_draws : nat → float * Draws float) :
  particles c = [] →
  animationId c = None →
  opt_decay options = None →
  Nat.iter 99 (frame height handle)
    (fire height handle px py count options draws c)
    = {| particles := []; animationId := None |}
  ∧ Nat.iter 99 (frame height handle)
      (celebrate width height handle count draws draws' c)
    = {| particles := []; animationId := None |}
  ∧ Nat.iter 99 (frame height handle)
      (burst height handle px py count burst_draws c)
    = {| particles := []; animationId := None |}.
Proof.
  intros Hempty Hidle Hdecay.
  pose proof (half_rounded_up count) as Hhalf.
  split; [|split].
  - unfold fire. cbn [animationId particles]. rewrite Hidle, Hempty.
    rewrite push_particles_seq. apply launched_particles_expire.
    apply Forall_app. split; [done|]. apply Forall_fmap, Forall_forall.
    intros i _. by apply createParticle_fresh.
  - unfold celebrate, animate_if_idle. cbn [animationId particles].
    rewrite Hidle, Hempty. rewrite !push_half_seq by lia.
    apply launched_particles_expire.
    repeat (apply Forall_app; split); [done| |];
      apply Forall_fmap, Forall_forall; intros i _;
      by apply (createParticle_fresh _ _ celebrate_options).
  - unfold burst, animate_if_idle. cbn [animationId particles].
    rewrite Hidle, Hempty. rewrite push_each_seq.
    apply launched_particles_expire.
    apply Forall_app. split; [done|]. apply Forall_fmap, Forall_forall.
    intros i _. by apply (createParticle_fresh _ _ no_options).
Qed.

End LaunchedConfettiExpires.

Lemma launched_confetti_is_gone_after_100_frames_witness :
  Nat.iter 99 (Launchers.frame 600%float 1%positive)
    (ConfettiCannon.fire 600%float 1%positive 400%float 300%float 50
       ConfettiCannon.no_options Launchers.sample_draws Launchers.new_cannon)
  = {| ConfettiCannon.particles := [];
       ConfettiCannon.animationId := None |}.
Proof.
  destruct (@launched_confetti_is_gone_after_100_frames
              Launchers.sample_maths Launchers.new_cannon 800%float
              600%float 400%float 300%float 1%positive 50
              ConfettiCannon.no_options Launchers.sample_draws
              Launchers.sample_draws Launchers.sample_burst_draws
              eq_refl eq_refl eq_refl) as (Hfire & _).
  exact Hfire.
Defined.

(** * Properties of the emoji explosion *)

Section EmojiFacts.

Import ConfettiCannon Launchers EmojiExplosion.

Context {N : Type} `{Number N} `{Maths N}.

Lemma filter_agree {A : Type} (P Q : A → Prop)
    `{!∀ a, Decision (P a), !∀ a, Decision (Q a)} (l : list A) :
  (∀ a, a ∈ l → (P a ↔ Q a)) → filter P l = filter Q l.
Proof.
  induction l as [|a l IH]; intros Hagree; [done|].
  assert (filter P l = filter Q l) as Htail.
  { apply IH. intros b Hb. apply Hagree. by right. }
  destruct (decide (P a)) as [Ha|Ha].
  - rewrite !filter_cons_True; [by rewrite Htail | | done].
    apply Hagree; [left | done].
  - rewrite !filter_cons_False; [done | | done].
    intros Hq. apply Ha. apply Hagree; [left | done].
Qed.

Lemma move_keeps_element (e : Emoji N) : el (move e) = el e.
Proof. reflexivity. Qed.

(** The elements of the emojis of [es] that fade on this frame. *)
Lemma emoji_loop_prefix (pre post : list (Emoji N))
    (attached : list positive) :
  animate_loop (length pre) (pre ++ post) attached
  = (filter (λ e, ¬ faded e) (move <$> pre) ++ post,
     filter (λ h, h ∉ el <$> filter (λ e, faded e) (move <$> pre)) attached).
Proof.
  revert post attached.
  induction pre as [|e pre IH] using rev_ind; intros post attached.
  - simpl. f_equal. symmetry. apply filter_all.
    apply Forall_forall. intros h _. apply not_elem_of_nil.
  - rewrite length_app, Nat.add_1_r. cbn [animate_loop].
    rewrite <- app_assoc. cbn [app].
    rewrite list_lookup_middle by done.
    rewrite insert_app_r_alt, Nat.sub_diag by lia. cbn [insert list_insert].
    rewrite !fmap_app, !filter_app. cbn [fmap list_fmap].
    destruct (faded (move e)) eqn:Hfaded.
    + rewrite delete_middle, IH.
      rewrite (filter_cons_False (λ e, ¬ faded e))
        by (rewrite Hfaded; intros Hnot; by apply Hnot).
      rewrite (filter_cons_True (λ e, faded e)) by by rewrite Hfaded.
      rewrite !filter_nil, app_nil_r. f_equal.
      unfold remove_element. rewrite list_filter_filter.
      apply list_filter_iff. intros h. rewrite fmap_app.
      cbn [fmap list_fmap]. rewrite not_elem_of_app, list_elem_of_singleton.
      done.
    + rewrite IH, <- app_assoc.
      rewrite (filter_cons_True (λ e, ¬ faded e))
        by (rewrite Hfaded; intros []).
      rewrite (filter_cons_False (λ e, faded e))
        by (rewrite Hfaded; intros []).
      by rewrite !filter_nil, app_nil_r.
Qed.

Lemma emoji_loop_all (es : list (Emoji N)) (attached : list positive) :
  animate_loop (length es) es attached
  = (filter (λ e, ¬ faded e) (move <$> es),
     filter (λ h, h ∉ el <$> filter (λ e, faded e) (move <$> es)) attached).
Proof.
  rewrite <- (app_nil_r es) at 2.
  by rewrite emoji_loop_prefix, app_nil_r.
Qed.

Lemma faded_elements_among (es : list (Emoji N)) (h : positive) :
  h ∈ el <$> filter (λ e, faded e) (move <$> es) → h ∈ el <$> es.
Proof.
  intros Hin. apply list_elem_of_fmap in Hin as (e' & -> & He').
  apply list_elem_of_filter in He' as [_ He'].
  apply list_elem_of_fmap in He' as (e & -> & He).
  rewrite move_keeps_element. by apply list_elem_of_fmap_2.
Qed.

Lemma attached_after_loop (es : list (Emoji N)) :
  NoDup (el <$> es) →
  filter (λ h, h ∉ el <$> filter (λ e, faded e) (move <$> es)) (el <$> es)
  = el <$> filter (λ e, ¬ faded e) (move <$> es).
Proof.
  induction es as [|e es IH]; intros Hunique; [done|].
  rewrite !fmap_cons in *. apply NoDup_cons in Hunique as [He Hunique].
  specialize (IH Hunique).
  destruct (faded (move e)) eqn:Hfaded.
  - rewrite (filter_cons_True (λ e, faded e)) by by rewrite Hfaded.
    rewrite (filter_cons_False (λ e, ¬ faded e))
      by (rewrite Hfaded; intros Hnot; by apply Hnot).
    rewrite fmap_cons, move_keeps_element.
    rewrite filter_cons_False by (intros Hnot; apply Hnot; left).
    rewrite <- IH. apply filter_agree. intros h Hh.
    rewrite not_elem_of_cons. split; [by intros [_ ?]|].
    intros Hnot. split; [|done]. intros ->. done.
  - rewrite (filter_cons_False (λ e, faded e))
      by (rewrite Hfaded; intros []).
    rewrite (filter_cons_True (λ e, ¬ faded e))
      by (rewrite Hfaded; intros []).
    rewrite fmap_cons, move_keeps_element.
    rewrite filter_cons_True; [by rewrite IH|].
    intros Hin. apply He. by apply faded_elements_among.
Qed.

Lemma explode_loop_seq (px py : N) (count : nat) (elements : nat → positive)
    (draws : nat → EmojiDraws N) (i togo : nat) (es : list (Emoji N))
    (attached : list positive) :
  explode_loop px py count elements draws i togo es attached
  = (es ++ ((λ k, new_emoji px py count k (elements k) (draws k))
              <$> seq i togo),
     attached ++ (elements <$> seq i togo)).
Proof.
  revert i es attached. induction togo as [|togo IH]; intros i es attached.
  - simpl. by rewrite !app_nil_r.
  - cbn [explode_loop seq]. rewrite IH, !fmap_cons, <- !app_assoc. done.
Qed.

(** X18. One frame of the emoji animation.  [animate] moves every emoji
    exactly once ([x += vx], [y += vy], then [vy += 0.3], [rotation +=
    rotationSpeed], [life -= decay], the element and the decay kept),
    keeps, in order, those whose new [life] is positive, removes from the
    document exactly the elements of those whose new [life <= 0], and asks
    for another frame exactly when an emoji is left. *)
Theorem emoji_frame_moves_then_removes_the_faded
    (handle : positive) (st : Explosion N) :
  emojis (animate handle st)
    = filter (λ e, ¬ leb (life e) (lit 0))
        ((λ e, {| el := el e;
                  x := add (x e) (vx e);
                  y := add (y e) (vy e);
                  vx := vx e;
                  vy := add (vy e) (lit 0.3);
                  rotation := add (rotation e) (rotationSpeed e);
                  rotationSpeed := rotationSpeed e;
                  life := sub (life e) (decay e);
                  decay := decay e |}) <$> emojis st)
  ∧ body (animate handle st)
    = filter (λ h, h ∉ el <$> filter
                                (λ e, leb (sub (life e) (decay e)) (lit 0))
                                (emojis st))
        (body st)
  ∧ (animationId (animate handle st) = None ↔ emojis (animate handle st) = []).
Proof.
  unfold animate. rewrite emoji_loop_all. cbn [emojis body animationId].
  split; [reflexivity|]. split.
  - apply list_filter_iff. intros h.
    assert (el <$> filter (λ e, faded e) (move <$> emojis st)
            = el <$> filter (λ e, leb (sub (life e) (decay e)) (lit 0))
                       (emojis st)) as ->; [|done].
    induction (emojis st) as [|e es IH]; [done|].
    rewrite fmap_cons, !filter_cons.
    change (faded (move e)) with (leb (sub (life e) (decay e)) (lit 0)).
    destruct (decide (leb (sub (life e) (decay e)) (lit 0))); [|exact IH].
    by rewrite !fmap_cons, IH.
  - destruct (filter (λ e, ¬ faded e) (move <$> emojis st)); simpl;
      split; done.
Qed.

End EmojiFacts.

Section EmojiDocument.

Import ConfettiCannon Launchers EmojiExplosion.

Context {N : Type} `{Number N} `{Maths N}.

Lemma animate_keeps_elements_in_step (handle : positive) (st : Explosion N) :
  body st = el <$> emojis st →
  NoDup (body st) →
  body (animate handle st) = el <$> emojis (animate handle st)
  ∧ NoDup (body (animate handle st)).
Proof.
  intros Hbody Hunique. unfold animate. rewrite emoji_loop_all.
  cbn [emojis body]. rewrite Hbody in *. split.
  - by apply attached_after_loop.
  - eapply sublist_NoDup; [exact Hunique|]. apply sublist_filter.
Qed.

Lemma new_emojis_elements (px py : N) (count : nat)
    (elements : nat → positive) (draws : nat → EmojiDraws N)
    (ks : list nat) :
  el <$> ((λ k, new_emoji px py count k (elements k) (draws k)) <$> ks)
  = elements <$> ks.
Proof. induction ks as [|k ks IH]; [done|]. by rewrite !fmap_cons, IH. Qed.

(** X19. No element is leaked.  If the elements that [explode] appended to
    the document and that are still attached are exactly the elements of
    the emojis in [this.emojis], in the same order and without repetition,
    then this is still so after an animation frame, after [animate], and
    after [explode] (whose [createElement] calls return elements that are
    new and pairwise different). *)
Theorem attached_elements_are_those_of_the_emojis
    (st : Explosion N) (handle : positive) (px py : N) (count : nat)
    (elements : nat → positive) (draws : nat → EmojiDraws N) :
  body st = el <$> emojis st →
  NoDup (body st ++ (elements <$> seq 0 count)) →
  (body (explode handle px py count elements draws st)
     = el <$> emojis (explode handle px py count elements draws st)
   ∧ NoDup (body (explode handle px py count elements draws st)))
  ∧ (body (frame handle st) = el <$> emojis (frame handle st)
     ∧ NoDup (body (frame handle st)))
  ∧ (body (animate handle st) = el <$> emojis (animate handle st)
     ∧ NoDup (body (animate handle st))).
Proof.
  intros Hbody Hfresh.
  assert (NoDup (body st)) as Hunique.
  { by apply NoDup_app in Hfresh as [? _]. }
  split; [|split].
  - unfold explode. rewrite explode_loop_seq.
    assert (body st ++ (elements <$> seq 0 count)
            = el <$> (emojis st
                      ++ ((λ k, new_emoji px py count k (elements k)
                                  (draws k)) <$> seq 0 count))) as Hgrown.
    { by rewrite fmap_app, new_emojis_elements, Hbody. }
    cbn [animationId]. destruct (animationId st) as [h0|].
    + cbn [body emojis]. by split.
    + by apply animate_keeps_elements_in_step.
  - unfold frame. destruct (animationId st) as [h0|]; [|by split].
    by apply animate_keeps_elements_in_step.
  - by apply animate_keeps_elements_in_step.
Qed.

End EmojiDocument.

(** ** How long an explosion lasts, in binary64 *)

Section EmojiLifetime.

Import ConfettiCannon Launchers EmojiExplosion.

Context `{M : Maths float}.

(** In binary64, subtracting 0.02 from 1 leaves a positive number 49 times
    and gives a negative one (about -6.2e-16) the 50th time. *)
Lemma emoji_life_trajectory :
  (∀ k, k ≤ 49 →
        PrimFloat.leb (Nat.iter k (λ l, PrimFloat.sub l 0.02%float) 1%float) 0
        = false)
  ∧ PrimFloat.leb (Nat.iter 50 (λ l, PrimFloat.sub l 0.02%float) 1%float) 0
    = true.
Proof.
  split; [|vm_compute; reflexivity].
  assert (forallb
            (λ k, negb (PrimFloat.leb
                          (Nat.iter k (λ l, PrimFloat.sub l 0.02%float)
                             1%float) 0))
            (seq 0 50) = true) as Hall by (vm_compute; reflexivity).
  intros k Hk.
  pose proof (proj1 (forallb_forall _ _) Hall k) as Hat.
  apply negb_true_iff, Hat, in_seq. lia.
Qed.

Lemma move_ages (k : nat) (e : Emoji float) :
  aged k e → aged (S k) (move e).
Proof.
  intros [Hdecay Hlife]. split; [exact Hdecay|].
  change (life (move e)) with (PrimFloat.sub (life e) (decay e)).
  by rewrite Hlife, Hdecay.
Qed.

Lemma new_emoji_is_fresh (px py : float) (count i : nat)
    (element : positive) (r : EmojiDraws float) :
  aged 0 (new_emoji px py count i element r).
Proof. split; vm_compute; reflexivity. Qed.

Lemma young_emojis_all_stay (k : nat) (es : list (Emoji float)) :
  S k ≤ 49 →
  Forall (aged k) es →
  filter (λ e, ¬ faded e) (move <$> es) = move <$> es
  ∧ filter (λ e, faded e) (move <$> es) = [].
Proof.
  intros Hk Hes.
  assert (Forall (λ e, faded e = false) (move <$> es)) as Halive.
  { apply Forall_fmap, Forall_forall. intros e He.
    eapply Forall_forall in Hes; [|exact He].
    destruct (move_ages k e Hes) as [_ Hlife].
    change (faded (move e) = false). unfold faded. rewrite Hlife.
    by apply (proj1 emoji_life_trajectory). }
  split.
  - apply filter_all. eapply Forall_impl; [exact Halive|].
    intros e He. by apply Is_true_false.
  - apply elem_of_nil_inv. intros e He.
    apply list_elem_of_filter in He as [Hfaded He].
    eapply Forall_forall in Halive; [|exact He].
    apply Is_true_false in Halive. by apply Halive.
Qed.

Lemma old_emojis_all_fade (es : list (Emoji float)) :
  Forall (aged 49) es →
  filter (λ e, ¬ faded e) (move <$> es) = [].
Proof.
  intros Hes. apply elem_of_nil_inv. intros e' He'.
  apply list_elem_of_filter in He' as [Halive He'].
  apply list_elem_of_fmap in He' as (e & -> & He).
  eapply Forall_forall in Hes; [|exact He].
  destruct (move_ages 49 e Hes) as [_ Hlife].
  apply Halive. unfold faded. rewrite Hlife.
  apply Is_true_true. exact (proj2 emoji_life_trajectory).
Qed.

(** What holds of an explosion all of whose emojis have been through [k]
    frames. *)
Lemma animate_young_explosion (k : nat) (handle : positive)
    (st : Explosion float) :
  S k ≤ 49 →
  Forall (aged k) (emojis st) →
  emojis (animate handle st) = move <$> emojis st
  ∧ body (animate handle st) = body st
  ∧ Forall (aged (S k)) (emojis (animate handle st))
  ∧ (animationId (animate handle st) = None
     ↔ emojis (animate handle st) = []).
Proof.
  intros Hk Hes.
  destruct (young_emojis_all_stay k (emojis st) Hk Hes) as [Hstay Hnone].
  unfold animate. rewrite emoji_loop_all, Hstay, Hnone.
  cbn [emojis body animationId]. split; [done|]. split.
  { apply filter_all, Forall_forall. intros h _. apply not_elem_of_nil. }
  split.
  { apply Forall_fmap. eapply Forall_impl; [exact Hes|].
    intros e He. by apply move_ages. }
  destruct (move <$> emojis st); simpl; split; done.
Qed.

Lemma frames_of_young_explosion (handle : positive) (st : Explosion float)
    (k n : nat) :
  k + n ≤ 49 →
  Forall (aged k) (emojis st) →
  (animationId st = None ↔ emojis st = []) →
  Forall (aged (k + n)) (emojis (Nat.iter n (frame handle) st))
  ∧ length (emojis (Nat.iter n (frame handle) st)) = length (emojis st)
  ∧ body (Nat.iter n (frame handle) st) = body st
  ∧ (animationId (Nat.iter n (frame handle) st) = None
     ↔ emojis (Nat.iter n (frame handle) st) = []).
Proof.
  intros Hn Hes Hinv. induction n as [|n IH].
  - rewrite Nat.add_0_r. by cbn [Nat.iter].
  - destruct IH as (IHes & IHlen & IHbody & IHinv); [lia|].
    rewrite Nat.iter_succ.
    generalize dependent (Nat.iter n (frame handle) st).
    intros st' IHes IHlen IHbody IHinv.
    replace (k + S n) with (S (k + n)) by lia.
    unfold frame. destruct (animationId st') as [h0|] eqn:Hid.
    + destruct (animate_young_explosion (k + n) handle st')
        as (Hemojis & Hbody & Haged & Hidle); [lia | done |].
      split; [done|]. split; [by rewrite Hemojis, length_fmap|].
      split; [by rewrite Hbody | done].
    + assert (emojis st' = []) as Hnil by by apply IHinv.
      split; [by rewrite Hnil|]. split; [done|]. split; [done|].
      by rewrite Hid.
Qed.

(** X20. An explosion lasts exactly fifty frames.  In binary64, [explode]
    on an explosion object that is idle and has nothing attached, with
    [createElement] returning pairwise different elements: the call runs
    the first frame itself; after each of the next 48 animation frames all
    [count] emojis are still there and all their elements attached; after
    the 49th, [this.emojis] is empty, every element has been removed from
    the document and no frame is pending, whatever the position, the random
    draws and the values of [Math.cos] and [Math.sin]. *)
Theorem explosion_lasts_fifty_frames
    (st : Explosion float) (handle : positive) (px py : float) (count : nat)
    (elements : nat → positive) (draws : nat → EmojiDraws float) (n : nat) :
  emojis st = [] →
  animationId st = None →
  body st = [] →
  NoDup (elements <$> seq 0 count) →
  n < 49 →
  length (emojis (Nat.iter n (frame handle)
                    (explode handle px py count elements draws st)))
    = count
  ∧ body (Nat.iter n (frame handle)
            (explode handle px py count elements draws st))
    = elements <$> seq 0 count
  ∧ Nat.iter 49 (frame handle)
      (explode handle px py count elements draws st)
    = {| emojis := []; animationId := None; body := [] |}.
Proof.
  intros Hempty Hidle Hbody Hunique Hn.
  assert (explode handle px py count elements draws st
          = animate handle
              {| emojis := (λ k, new_emoji px py count k (elements k)
                                   (draws k)) <$> seq 0 count;
                 animationId := None;
                 body := elements <$> seq 0 count |}) as Hexplode.
  { unfold explode. rewrite explode_loop_seq. cbn [animationId].
    by rewrite Hidle, Hempty, Hbody. }
  rewrite Hexplode.
  set (st0 := {| emojis := (λ k, new_emoji px py count k (elements k)
                                   (draws k)) <$> seq 0 count;
                 animationId := None;
                 body := elements <$> seq 0 count |}).
  assert (Forall (aged 0) (emojis st0)) as Hfresh.
  { apply Forall_fmap, Forall_forall. intros k _.
    apply new_emoji_is_fresh. }
  destruct (animate_young_explosion 0 handle st0)
    as (Hemojis1 & Hbody1 & Haged1 & Hidle1); [lia | done |].
  assert (body (animate handle st0) = el <$> emojis (animate handle st0)
          ∧ NoDup (body (animate handle st0))) as [Hels1 Hunique1].
  { apply animate_keeps_elements_in_step; [|done]. subst st0.
    cbn [body emojis]. by rewrite new_emojis_elements. }
  assert (∀ m, m < 49 →
            Forall (aged (1 + m))
              (emojis (Nat.iter m (frame handle) (animate handle st0)))
            ∧ length (emojis (Nat.iter m (frame handle) (animate handle st0)))
              = count
            ∧ body (Nat.iter m (frame handle) (animate handle st0))
              = elements <$> seq 0 count
            ∧ (animationId (Nat.iter m (frame handle) (animate handle st0))
                 = None
               ↔ emojis (Nat.iter m (frame handle) (animate handle st0))
                 = [])) as Hrun.
  { intros m Hm.
    destruct (frames_of_young_explosion handle (animate handle st0) 1 m)
      as (Haged & Hlen & Hbodym & Hidlem); [lia | done | done |].
    split; [done|]. split.
    - rewrite Hlen, Hemojis1, length_fmap. subst st0. cbn [emojis].
      by rewrite length_fmap, length_seq.
    - split; [by rewrite Hbodym, Hbody1 | done]. }
  destruct (Hrun n Hn) as (_ & Hlen & Hbodyn & _).
  split; [exact Hlen|]. split; [exact Hbodyn|].
  destruct (Hrun 48) as (Haged & _ & Hbody48 & Hidle48); [lia|].
  assert (body (Nat.iter 48 (frame handle) (animate handle st0))
          = el <$> emojis (Nat.iter 48 (frame handle) (animate handle st0)))
    as Hels48.
  { clear Hrun Hlen Hbodyn Haged Hidle48 Hbody48.
    assert (∀ m,
              body (Nat.iter m (frame handle) (animate handle st0))
              = el <$> emojis (Nat.iter m (frame handle) (animate handle st0))
              ∧ NoDup (body (Nat.iter m (frame handle)
                               (animate handle st0)))) as Hall.
    { induction m as [|m [IHels IHunique]]; [by split|].
      rewrite Nat.iter_succ.
      generalize dependent (Nat.iter m (frame handle) (animate handle st0)).
      intros stm IHels IHunique. unfold frame.
      destruct (animationId stm); [|by split].
      by apply animate_keeps_elements_in_step. }
    apply Hall. }
  rewrite Nat.iter_succ.
  generalize dependent (Nat.iter 48 (frame handle) (animate handle st0)).
  intros st48 Haged Hbody48 Hidle48 Hels48.
  unfold frame. destruct (animationId st48) as [h0|] eqn:Hid.
  - unfold animate. rewrite emoji_loop_all.
    rewrite (old_emojis_all_fade (emojis st48)) by done.
    cbn [length]. rewrite Hels48.
    assert (filter
              (λ h, h ∉ el <$> filter (λ e, faded e) (move <$> emojis st48))
              (el <$> emojis st48) = []) as ->; [|done].
    apply elem_of_nil_inv. intros h Hh.
    apply list_elem_of_filter in Hh as [Hnot Hh]. apply Hnot.
    apply list_elem_of_fmap in Hh as (e & -> & He).
    rewrite <- (move_keeps_element e). apply list_elem_of_fmap_2.
    apply list_elem_of_filter. split; [|by apply list_elem_of_fmap_2].
    eapply Forall_forall in Haged; [|exact He].
    destruct (move_ages 49 e Haged) as [_ Hlife].
    unfold faded. rewrite Hlife.
    apply Is_true_true. exact (proj2 emoji_life_trajectory).
  - assert (emojis st48 = []) as Hnil by by apply Hidle48.
    destruct st48 as [es aid bd]. cbn [emojis animationId body] in *.
    rewrite Hnil in Hels48. by rewrite Hid, Hnil, Hels48.
Qed.

End EmojiLifetime.

Lemma attached_elements_are_those_of_the_emojis_witness :
  EmojiExplosion.body
    (@EmojiExplosion.explode float ConfettiCannon.binary64
       Launchers.sample_maths 1%positive 400%float 300%float 10
       EmojiExplosion.sample_elements EmojiExplosion.sample_emoji_draws
       EmojiExplosion.no_explosion)
  = EmojiExplosion.el
      <$> EmojiExplosion.emojis
            (@EmojiExplosion.explode float ConfettiCannon.binary64
               Launchers.sample_maths 1%positive 400%float 300%float 10
               EmojiExplosion.sample_elements
               EmojiExplosion.sample_emoji_draws
               EmojiExplosion.no_explosion)
  ∧ NoDup
      (EmojiExplosion.body
         (@EmojiExplosion.explode float ConfettiCannon.binary64
            Launchers.sample_maths 1%positive 400%float 300%float 10
            EmojiExplosion.sample_elements EmojiExplosion.sample_emoji_draws
            EmojiExplosion.no_explosion)).
Proof.
  destruct (@attached_elements_are_those_of_the_emojis float
              ConfettiCannon.binary64 Launchers.sample_maths
              EmojiExplosion.no_explosion 1%positive 400%float 300%float 10
              EmojiExplosion.sample_elements
              EmojiExplosion.sample_emoji_draws) as (Hexplode & _).
  - reflexivity.
  - apply (bool_decide_unpack _). vm_compute. exact I.
  - exact Hexplode.
Defined.

Lemma explosion_lasts_fifty_frames_witness :
  length
    (EmojiExplosion.emojis
       (Nat.iter 48 (EmojiExplosion.frame 1%positive)
          (@EmojiExplosion.explode float ConfettiCannon.binary64
             Launchers.sample_maths 1%positive 400%float 300%float 10
             EmojiExplosion.sample_elements
             EmojiExplosion.sample_emoji_draws
             EmojiExplosion.no_explosion)))
  = 10
  ∧ EmojiExplosion.body
      (Nat.iter 48 (EmojiExplosion.frame 1%positive)
         (@EmojiExplosion.explode float ConfettiCannon.binary64
            Launchers.sample_maths 1%positive 400%float 300%float 10
            EmojiExplosion.sample_elements EmojiExplosion.sample_emoji_draws
            EmojiExplosion.no_explosion))
    = EmojiExplosion.sample_elements <$> seq 0 10
  ∧ Nat.iter 49 (EmojiExplosion.frame 1%positive)
      (@EmojiExplosion.explode float ConfettiCannon.binary64
         Launchers.sample_maths 1%positive 400%float 300%float 10
         EmojiExplosion.sample_elements EmojiExplosion.sample_emoji_draws
         EmojiExplosion.no_explosion)
    = {| EmojiExplosion.emojis := [];
         EmojiExplosion.animationId := None;
         EmojiExplosion.body := [] |}.
Proof.
  apply (@explosion_lasts_fifty_frames Launchers.sample_maths
           EmojiExplosion.no_explosion 1%positive 400%float 300%float 10
           EmojiExplosion.sample_elements EmojiExplosion.sample_emoji_draws
           48).
  - reflexivity.
  - reflexivity.
  - reflexivity.
  - apply (bool_decide_unpack _). vm_compute. exact I.
  - lia.
Defined.

(** * The completion check of the shopping page *)

Lemma checkCompletion_scheduled (allItems : list GroceryItem)
    (celebrationShown : bool) :
  (checkCompletion allItems celebrationShown).2 = true →
  allItems ≠ []
  ∧ Forall (λ it, truthy (bought it) = true) allItems
  ∧ celebrationShown = false
  ∧ (checkCompletion allItems celebrationShown).1 = true.
Proof.
  unfold checkCompletion.
  destruct (bool_decide (0 < length allItems)) eqn:Htotal;
    [|by repeat case_bool_decide].
  destruct (bool_decide
              (length (filter (λ i, truthy (bought i)) allItems)
               = length allItems)) eqn:Hall;
    [|by repeat case_bool_decide].
  destruct celebrationShown; [by repeat case_bool_decide|].
  intros _. apply bool_decide_eq_true in Htotal, Hall.
  split; [by destruct allItems; [simpl in Htotal; lia|]|].
  split; [|done].
  apply Forall_forall. intros it Hit.
  destruct (truthy (bought it)) eqn:Hbought; [done|].
  assert (¬ truthy (bought it)) as Hnot by (rewrite Hbought; intros []).
  pose proof (length_filter_lt (λ i, truthy (bought i)) allItems it Hit Hnot).
  lia.
Qed.

Lemma page_step_scheduled (ev : PageEvent) (celebrationShown : bool) :
  (page_step ev celebrationShown).2 = true →
  celebrationShown = false
  ∧ (page_step ev celebrationShown).1 = true
  ∧ ∃ allItems,
      ev = Checked allItems ∧ allItems ≠ []
      ∧ Forall (λ it, truthy (bought it) = true) allItems.
Proof.
  destruct ev as [allItems|confirmed resolved allItems]; [|done].
  intros Hscheduled.
  destruct (checkCompletion_scheduled allItems celebrationShown Hscheduled)
    as (Hnonempty & Hall & Hshown & Hflag).
  split; [exact Hshown|]. split; [exact Hflag|]. by exists allItems.
Qed.

Lemma fewer_bought_some_not_bought (allItems : list GroceryItem) :
  length (filter (λ i, truthy (bought i)) allItems) < length allItems →
  ∃ it, it ∈ allItems ∧ truthy (bought it) = false.
Proof.
  induction allItems as [|a rest IH]; [simpl; lia|].
  rewrite filter_cons. destruct (truthy (bought a)) eqn:Hbought.
  - rewrite decide_True by exact I. cbn [length]. intros Hless.
    destruct IH as (it & Hit & Hnot); [lia|].
    exists it. split; [by right | exact Hnot].
  - intros _. exists a. split; [by left | exact Hbought].
Qed.

Lemma page_step_reset (ev : PageEvent) :
  (page_step ev true).1 = false → resets_celebrationShown ev.
Proof.
  destruct ev as [allItems|confirmed resolved allItems]; simpl.
  - unfold checkCompletion. rewrite andb_false_r.
    case_bool_decide as Hless; [|done]. intros _.
    by apply fewer_bought_some_not_bought.
  - unfold clearBoughtItems_celebrationShown.
    case_bool_decide as Hnone; [done|].
    destruct confirmed; [|done]. destruct resolved; [|done]. intros _.
    split; [done|]. split; [done|].
    destruct (filter (λ i, truthy (bought i)) allItems) as [|it rest] eqn:Hf;
      [done|].
    assert (it ∈ filter (λ i, truthy (bought i)) allItems) as Hin
      by (rewrite Hf; left).
    apply list_elem_of_filter in Hin as [Htruthy Hin].
    exists it. split; [exact Hin|]. by apply Is_true_true.
Qed.

Lemma scheduled_celebrations_cons (ev : PageEvent) (evs : list PageEvent)
    (celebrationShown : bool) :
  scheduled_celebrations (ev :: evs) celebrationShown
  = (page_step ev celebrationShown).2
    :: scheduled_celebrations evs (page_step ev celebrationShown).1.
Proof. simpl. by destruct (page_step ev celebrationShown). Qed.

(** While [celebrationShown] is [true], nothing is scheduled before an
    event that resets it. *)
Lemma scheduled_after_shown (evs : list PageEvent) (j : nat) :
  scheduled_celebrations evs true !! j = Some true →
  ∃ k ev, k < j ∧ evs !! k = Some ev ∧ resets_celebrationShown ev.
Proof.
  revert j. induction evs as [|ev evs IH]; intros j Hj; [done|].
  rewrite scheduled_celebrations_cons in Hj.
  destruct j as [|j]; simpl in Hj.
  - injection Hj as Hj. by apply page_step_scheduled in Hj as [? _].
  - destruct (page_step ev true).1 eqn:Hflag.
    + destruct (IH j Hj) as (k & ev' & Hk & Hev' & Hreset).
      exists (S k), ev'. split; [lia|]. by split.
    + exists 0, ev. split; [lia|]. split; [done|].
      by apply page_step_reset.
Qed.

(** X21. The celebration is scheduled once per completion.  Along any
    sequence of calls of [checkCompletion()] and [clearBoughtItems()], the
    two functions that write [celebrationShown], each celebration is
    scheduled by a [checkCompletion()] that sees a list that is not empty
    and has every item bought; and between two scheduled celebrations
    [celebrationShown] was reset: by a [checkCompletion()] that saw an item
    that is not bought, or by a [clearBoughtItems()] that found a bought
    item, was confirmed and whose requests all resolved. *)
Theorem celebration_is_scheduled_once
    (evs : list PageEvent) (celebrationShown : bool) (i j : nat) :
  i < j →
  scheduled_celebrations evs celebrationShown !! i = Some true →
  scheduled_celebrations evs celebrationShown !! j = Some true →
  (∃ allItems,
     evs !! i = Some (Checked allItems) ∧ allItems ≠ []
     ∧ Forall (λ it, truthy (bought it) = true) allItems)
  ∧ ∃ k ev, i < k < j ∧ evs !! k = Some ev ∧ resets_celebrationShown ev.
Proof.
  revert celebrationShown i j.
  induction evs as [|ev evs IH]; intros shown i j Hij Hi Hj; [done|].
  rewrite scheduled_celebrations_cons in Hi, Hj.
  destruct j as [|j]; [lia|]. simpl in Hj.
  destruct i as [|i]; simpl in Hi.
  - injection Hi as Hi.
    apply page_step_scheduled in Hi as (_ & Hflag & allItems & -> & Hitems).
    split; [by exists allItems|].
    rewrite Hflag in Hj.
    destruct (scheduled_after_shown evs j Hj) as (k & ev' & Hk & Hev' & Hr).
    exists (S k), ev'. split; [lia|]. by split.
  - destruct (IH _ i j ltac:(lia) Hi Hj)
      as [Hfirst (k & ev' & Hk & Hev' & Hr)].
    split; [exact Hfirst|].
    exists (S k), ev'. split; [lia|]. by split.
Qed.

Lemma celebration_is_scheduled_once_witness :
  (∃ allItems,
     [Checked [bread]; Checked [bread]; Cleared true true [bread; milk];
      Checked [bread; bread]] !! 0
     = Some (Checked allItems) ∧ allItems ≠ []
     ∧ Forall (λ it, truthy (bought it) = true) allItems)
  ∧ ∃ k ev,
      0 < k < 3
      ∧ [Checked [bread]; Checked [bread]; Cleared true true [bread; milk];
         Checked [bread; bread]] !! k
        = Some ev
      ∧ resets_celebrationShown ev.
Proof.
  apply (celebration_is_scheduled_once
           [Checked [bread]; Checked [bread]; Cleared true true [bread; milk];
            Checked [bread; bread]]
           false 0 3).
  - lia.
  - reflexivity.
  - reflexivity.
Defined.
